(** * Batch gradient descent for least squares

    A shallow embedding of the code cell "programming gradient descent" of
    [Lectures/Supervised Learning/6. Gradient Descent - Complete.ipynb]:

<<
    alpha = .05
    beta_star = np.random.random(size=(2,1))
    tol = 0.000000001
    max_iter = 50000

    for i in range(max_iter):
        beta_star_new = beta_star - alpha*(2/len(X))*X.transpose().dot(X.dot(beta_star) - y.reshape(-1,1))
        if np.sum(np.power(beta_star_new - beta_star,2))/2 < tol:
            beta_hat = beta_star_new
            break
        else:
            beta_star = beta_star_new
        if i + 1 == max_iter:
            print("Maximum iterations reached before convergence.")

    print("Went through", i, "iterations")
    print("beta_hat =")
    print(beta_hat)
>>

    The cell is a script: its variables are names of the notebook's global
    namespace, its results are what it prints and what it leaves bound. *)

From Stdlib Require Import String List QArith Lia Lqa Bool Arith.
From Stdlib Require PrimFloat FloatOps SpecFloat.
Import ListNotations.
Local Open Scope string_scope.
Local Open Scope list_scope.
Local Open Scope nat_scope.

(** ** Scalars

    The arithmetic the cell performs on array entries.  numpy computes in
    IEEE binary64: that is the instance [float64_Scalar] below, with its
    rounding, its overflow to infinity and its NaN.  What is proved for every
    [Scalar] assumes no law of arithmetic and so holds of the cell as it
    runs.  The instance [Q_Scalar] is exact arithmetic, the arithmetic of
    the formulas the notebook derives: what is proved over it says so, and
    holds of a run only up to rounding. *)

Class Scalar (K : Type) : Type := {
  kadd : K -> K -> K;
  ksub : K -> K -> K;
  kmul : K -> K -> K;
  kdiv : K -> K -> K;
  kltb : K -> K -> bool;
  kofnat : nat -> K
}.

Definition Qlt_bool (a b : Q) : bool := negb (Qle_bool b a).

Definition Qofnat (n : nat) : Q := inject_Z (Z.of_nat n).

(** Exact rational arithmetic, every result in lowest terms. *)
#[export] Instance Q_Scalar : Scalar Q := {
  kadd := fun a b => Qred (a + b);
  ksub := fun a b => Qred (a - b);
  kmul := fun a b => Qred (a * b);
  kdiv := fun a b => Qred (a / b);
  kltb := Qlt_bool;
  kofnat := Qofnat
}.

(** A Python integer as a double; exact up to [2^53], beyond the length of
    any array. *)
Fixpoint float_of_nat (n : nat) : PrimFloat.float :=
  match n with
  | O => PrimFloat.zero
  | S m => PrimFloat.add (float_of_nat m) PrimFloat.one
  end.

(** IEEE binary64, the arithmetic of numpy's [float64] and of Python's
    [float]: every operation rounds to nearest, a comparison with NaN is
    false. *)
#[export] Instance float64_Scalar : Scalar PrimFloat.float := {
  kadd := PrimFloat.add;
  ksub := PrimFloat.sub;
  kmul := PrimFloat.mul;
  kdiv := PrimFloat.div;
  kltb := PrimFloat.ltb;
  kofnat := float_of_nat
}.

(** The rational number a finite double stands for. *)
Definition Q_of_float (f : PrimFloat.float) : Q :=
  match FloatOps.Prim2SF f with
  | SpecFloat.S754_finite s m e =>
      Qred ((if s then - (1) else 1) * inject_Z (Z.pos m) * Qpower 2 e)%Q
  | _ => 0%Q
  end.

(** ** Python results *)

Inductive exn : Type :=
| NameError (name : string)
| ValueError
| ZeroDivisionError.

Inductive result (A : Type) : Type :=
| Ok (a : A)
| Err (e : exn).
Arguments Ok {A} a.
Arguments Err {A} e.

Definition rbind {A B} (r : result A) (k : A -> result B) : result B :=
  match r with
  | Ok a => k a
  | Err e => Err e
  end.

Declare Scope py_scope.
Delimit Scope py_scope with py.
Notation "x <- r ;; k" := (rbind r (fun x => k))
  (at level 61, r at next level, right associativity) : py_scope.

(** ** The part of numpy the cell uses

    Arrays are two-dimensional, with their shape kept beside their rows, so
    that arrays without rows or without columns have a shape too.  An
    operation whose operands do not fit raises [ValueError], as in numpy;
    subtraction broadcasts an axis of length 1.  numpy does not fix the order
    in which a dot product or [np.sum] accumulates; here they accumulate from
    the left, which is numpy's result at least when a sum has a single
    term, or two terms whose products are exact, as in the runs on doubles
    below.  The cell
    never writes into an array, so that [beta_hat] and
    [beta_star_new] naming one array after the [break] has no effect of its
    own. *)

Section Numpy.
Context {K : Type} `{Scalar K}.

Definition kzero : K := kofnat 0.

(** A two-dimensional array: its shape and its rows. *)
Record ndarray : Type := NdArray {
  nrows : nat;
  ncols : nat;
  rows : list (list K)
}.

Definition item (A : ndarray) (r c : nat) : K :=
  nth c (nth r (rows A) []) kzero.

Definition build (n m : nat) (f : nat -> nat -> K) : ndarray :=
  NdArray n m (map (fun r => map (f r) (seq 0 m)) (seq 0 n)).

(** [len(A)] *)
Definition len (A : ndarray) : nat := nrows A.

(** Accumulation of [f 0], ..., [f (n-1)], from the left. *)
Fixpoint sigma (n : nat) (f : nat -> K) : K :=
  match n with
  | 0 => kzero
  | S m => kadd (sigma m f) (f m)
  end.

(** [A.transpose()] *)
Definition np_transpose (A : ndarray) : ndarray :=
  build (ncols A) (nrows A) (fun r c => item A c r).

(** [A.dot(B)]: the inner dimensions must agree. *)
Definition np_dot (A B : ndarray) : result ndarray :=
  if ncols A =? nrows B
  then Ok (build (nrows A) (ncols B)
             (fun r c => sigma (ncols A) (fun k => kmul (item A r k) (item B k c))))
  else Err ValueError.

(** Broadcasting of one axis: equal lengths, or one of them is 1. *)
Definition broadcast_dim (a b : nat) : option nat :=
  if a =? b then Some a
  else if a =? 1 then Some b
  else if b =? 1 then Some a
  else None.

Definition stretch (dim idx : nat) : nat := if dim =? 1 then 0 else idx.

(** [A - B], with broadcasting. *)
Definition np_sub (A B : ndarray) : result ndarray :=
  match broadcast_dim (nrows A) (nrows B), broadcast_dim (ncols A) (ncols B) with
  | Some n, Some m =>
      Ok (build n m (fun r c =>
            ksub (item A (stretch (nrows A) r) (stretch (ncols A) c))
                 (item B (stretch (nrows B) r) (stretch (ncols B) c))))
  | _, _ => Err ValueError
  end.

(** [s * A] for a scalar [s]. *)
Definition np_scale (s : K) (A : ndarray) : ndarray :=
  build (nrows A) (ncols A) (fun r c => kmul s (item A r c)).

Fixpoint kpow (x : K) (e : nat) : K :=
  match e with
  | 0 => kofnat 1
  | S e' => kmul x (kpow x e')
  end.

(** [np.power(A, e)] *)
Definition np_power (A : ndarray) (e : nat) : ndarray :=
  build (nrows A) (ncols A) (fun r c => kpow (item A r c) e).

(** [np.sum(A)] *)
Definition np_sum (A : ndarray) : K :=
  fold_left kadd (concat (rows A)) kzero.

(** [v.reshape(-1,1)] for a one-dimensional array [v]. *)
Definition reshape_column (v : list K) : ndarray :=
  NdArray (length v) 1 (map (fun x => [x]) v).

(** [a / b] on Python integers. *)
Definition int_truediv (a b : nat) : result K :=
  if b =? 0 then Err ZeroDivisionError else Ok (kdiv (kofnat a) (kofnat b)).

End Numpy.

Arguments ndarray K : clear implicits.

(** An array of finite doubles, entry by entry as rationals. *)
Definition exactly (A : ndarray PrimFloat.float) : ndarray Q :=
  NdArray (nrows A) (ncols A) (map (map Q_of_float) (rows A)).

(** ** The notebook as a Python program

    The cell's variables live in the notebook's global namespace, where a name
    is unbound until some cell has assigned it; the names the cell assigns are
    the fields below.  [X] and [y] are bound by an earlier cell and only read. *)

Section Notebook.
Context {K : Type} `{Scalar K}.

(** An argument of [print]. *)
Inductive pyobj : Type :=
| PStr (s : string)
| PInt (n : nat)
| PArr (a : ndarray K).

Record namespace : Type := Namespace {
  alpha : option K;
  beta_star : option (ndarray K);
  tol : option K;
  max_iter : option nat;
  i : option nat;
  beta_star_new : option (ndarray K);
  beta_hat : option (ndarray K)
}.

(** Nothing of the cell has run yet in a fresh kernel. *)
Definition fresh : namespace :=
  Namespace None None None None None None None.

(** The namespace, what has been printed (one entry per call of [print]),
    and a ghost counter of how many times a loop body has been entered. *)
Record state : Type := State {
  globals : namespace;
  stdout : list (list pyobj);
  entered : nat
}.

(** How a statement ends: normally, by [break], or by raising. *)
Inductive ctl (A : Type) : Type :=
| Val (a : A)
| Brk
| Exc (e : exn).
Arguments Val {A} a.
Arguments Brk {A}.
Arguments Exc {A} e.

Definition stmt (A : Type) : Type := state -> state * ctl A.

Definition ret {A} (a : A) : stmt A := fun st => (st, Val a).

Definition bind {A B} (m : stmt A) (k : A -> stmt B) : stmt B :=
  fun st =>
    match m st with
    | (st', Val a) => k a st'
    | (st', Brk) => (st', Brk)
    | (st', Exc e) => (st', Exc e)
    end.

Declare Scope stmt_scope.
Delimit Scope stmt_scope with stmt.
Notation "x <- m ;; k" := (bind m (fun x => k))
  (at level 61, m at next level, right associativity) : stmt_scope.
Notation "m ;; k" := (bind m (fun _ => k))
  (at level 61, right associativity) : stmt_scope.

(** Evaluation of an expression in the current namespace. *)
Definition eval {A} (e : namespace -> result A) : stmt A :=
  fun st =>
    match e (globals st) with
    | Ok a => (st, Val a)
    | Err x => (st, Exc x)
    end.

(** A name that is read: [NameError] when nothing is bound to it. *)
Definition name {A} (x : string) (v : option A) : result A :=
  match v with
  | Some a => Ok a
  | None => Err (NameError x)
  end.

Definition assign (f : namespace -> namespace) : stmt unit :=
  fun st => (State (f (globals st)) (stdout st) (entered st), Val tt).

Definition set_alpha (v : K) (g : namespace) : namespace :=
  Namespace (Some v) (beta_star g) (tol g) (max_iter g) (i g)
            (beta_star_new g) (beta_hat g).
Definition set_beta_star (v : ndarray K) (g : namespace) : namespace :=
  Namespace (alpha g) (Some v) (tol g) (max_iter g) (i g)
            (beta_star_new g) (beta_hat g).
Definition set_tol (v : K) (g : namespace) : namespace :=
  Namespace (alpha g) (beta_star g) (Some v) (max_iter g) (i g)
            (beta_star_new g) (beta_hat g).
Definition set_max_iter (v : nat) (g : namespace) : namespace :=
  Namespace (alpha g) (beta_star g) (tol g) (Some v) (i g)
            (beta_star_new g) (beta_hat g).
Definition set_i (v : nat) (g : namespace) : namespace :=
  Namespace (alpha g) (beta_star g) (tol g) (max_iter g) (Some v)
            (beta_star_new g) (beta_hat g).
Definition set_beta_star_new (v : ndarray K) (g : namespace) : namespace :=
  Namespace (alpha g) (beta_star g) (tol g) (max_iter g) (i g)
            (Some v) (beta_hat g).
Definition set_beta_hat (v : ndarray K) (g : namespace) : namespace :=
  Namespace (alpha g) (beta_star g) (tol g) (max_iter g) (i g)
            (beta_star_new g) (Some v).

Definition print (args : list pyobj) : stmt unit :=
  fun st => (State (globals st) (stdout st ++ [args]) (entered st), Val tt).

Definition break : stmt unit := fun st => (st, Brk).

Definition tick : stmt unit :=
  fun st => (State (globals st) (stdout st) (S (entered st)), Val tt).

(** [for i in range(...)]: the body runs once per index with [i] bound to
    it, until the indices are used up, a [break] or an exception.  Python
    keeps no record of how the loop ended; the result here says whether it
    was left by [break]. *)
Fixpoint for_i_in (idxs : list nat) (body : stmt unit) : stmt bool :=
  fun st =>
    match idxs with
    | [] => (st, Val false)
    | k :: rest =>
        match (assign (set_i k) ;; tick ;; body)%stmt st with
        | (st', Val _) => for_i_in rest body st'
        | (st', Brk) => (st', Val true)
        | (st', Exc e) => (st', Exc e)
        end
    end.

Variable X : ndarray K.
Variable y : list K.

(** [b - a*(2/len(X))*X.transpose().dot(X.dot(b) - y.reshape(-1,1))] *)
Definition descent_step (a : K) (b : ndarray K) : result (ndarray K) :=
  (q <- int_truediv 2 (len X) ;;
   Xb <- np_dot X b ;;
   r <- np_sub Xb (reshape_column y) ;;
   d <- np_dot (np_transpose X) r ;;
   np_sub b (np_scale (kmul a q) d))%py.

(** [beta_star - alpha*(2/len(X))*X.transpose().dot(X.dot(beta_star) - y.reshape(-1,1))] *)
Definition update_expr (g : namespace) : result (ndarray K) :=
  (b <- name "beta_star" (beta_star g) ;;
   a <- name "alpha" (alpha g) ;;
   descent_step a b)%py.

(** [np.sum(np.power(bn - b,2))/2] *)
Definition half_sq_dist (bn b : ndarray K) : result K :=
  (d <- np_sub bn b ;;
   Ok (kdiv (np_sum (np_power d 2)) (kofnat 2)))%py.

(** [np.sum(np.power(beta_star_new - beta_star,2))/2 < tol] *)
Definition tolerance_expr (g : namespace) : result bool :=
  (bn <- name "beta_star_new" (beta_star_new g) ;;
   b <- name "beta_star" (beta_star g) ;;
   s <- half_sq_dist bn b ;;
   t <- name "tol" (tol g) ;;
   Ok (kltb s t))%py.

(** [i + 1 == max_iter] *)
Definition last_iteration_expr (g : namespace) : result bool :=
  (k <- name "i" (i g) ;;
   m <- name "max_iter" (max_iter g) ;;
   Ok (k + 1 =? m))%py.

Definition max_iter_notice : list pyobj :=
  [PStr "Maximum iterations reached before convergence."].

(** The body of the [for] loop. *)
Definition loop_body : stmt unit :=
  (new <- eval update_expr ;;
   assign (set_beta_star_new new) ;;
   small <- eval tolerance_expr ;;
   (if small : bool
    then (v <- eval (fun g => name "beta_star_new" (beta_star_new g)) ;;
          assign (set_beta_hat v) ;;
          break)
    else (v <- eval (fun g => name "beta_star_new" (beta_star_new g)) ;;
          assign (set_beta_star v))) ;;
   last <- eval last_iteration_expr ;;
   if last : bool then print max_iter_notice else ret tt)%stmt.

(** [for i in range(max_iter): ...] *)
Definition gradient_descent_loop : stmt bool :=
  (m <- eval (fun g => name "max_iter" (max_iter g)) ;;
   for_i_in (seq 0 m) loop_body)%stmt.

(** The cell up to the end of its loop, for a learning rate, a draw of the
    initial guess, a tolerance and an iteration cap. *)
Definition descent_run (a : K) (b0 : ndarray K) (eps : K) (m : nat)
  : stmt bool :=
  (assign (set_alpha a) ;;
   assign (set_beta_star b0) ;;
   assign (set_tol eps) ;;
   assign (set_max_iter m) ;;
   gradient_descent_loop)%stmt.

(** The three calls of [print] after the loop. *)
Definition report : stmt unit :=
  (k <- eval (fun g => name "i" (i g)) ;;
   print [PStr "Went through"; PInt k; PStr "iterations"] ;;
   print [PStr "beta_hat ="] ;;
   b <- eval (fun g => name "beta_hat" (beta_hat g)) ;;
   print [PArr b])%stmt.

(** The whole cell; its result is how the loop ended. *)
Definition gradient_descent (a : K) (b0 : ndarray K) (eps : K) (m : nat)
  : stmt bool :=
  (r <- descent_run a b0 eps m ;;
   report ;;
   ret r)%stmt.

Definition went_through (t : nat) : list pyobj :=
  [PStr "Went through"; PInt t; PStr "iterations"].

Definition beta_hat_label : list pyobj := [PStr "beta_hat ="].

(** What a statement printed. *)
Definition printed_by {A} (c : stmt A) (st : state) : list (list pyobj) :=
  skipn (length (stdout st)) (stdout (fst (c st))).

(** How many loop bodies a statement entered. *)
Definition entered_by {A} (c : stmt A) (st : state) : nat :=
  entered (fst (c st)) - entered st.

End Notebook.

Arguments Val {A} a.
Arguments Brk {A}.
Arguments Exc {A} e.
Declare Scope stmt_scope.
Delimit Scope stmt_scope with stmt.
Notation "x <- m ;; k" := (bind m (fun x => k))
  (at level 61, m at next level, right associativity) : stmt_scope.
Notation "m ;; k" := (bind m (fun _ => k))
  (at level 61, right associativity) : stmt_scope.
Arguments namespace K : clear implicits.
Arguments state K : clear implicits.
Arguments pyobj K : clear implicits.
Arguments fresh {K}.

(** ** The run, iteration by iteration *)

(** Entry [(r, c)] of the update of [b]. *)
Definition update_entry {K} `{Scalar K} (X : ndarray K) (y : list K) (a : K) (b : ndarray K)
    (r c : nat) : K :=
  ksub (item b r c)
    (kmul (kmul a (kdiv (kofnat 2) (kofnat (nrows X))))
       (sigma (nrows X) (fun k =>
          kmul (item X k r)
            (ksub (sigma (ncols X) (fun j => kmul (item X k j) (item b j c)))
                  (nth (stretch (length y) k) y kzero))))).

Section Trajectory.
Context {K : Type} `{Scalar K}.
Variable X : ndarray K.
Variable y : list K.
Variable a : K.
Variable eps : K.
Variable M : nat.

(** The hyperparameters are bound and the current estimate is [b]. *)
Definition ready (g : namespace K) (b : ndarray K) : Prop :=
  alpha g = Some a /\ tol g = Some eps /\ max_iter g = Some M /\
  beta_star g = Some b.

(** The estimate after [n] updates that were all kept. *)
Fixpoint iterate (n : nat) (b : ndarray K) : result (ndarray K) :=
  match n with
  | 0 => Ok b
  | S n' => (b' <- descent_step X y a b ;; iterate n' b')%py
  end.

(** Iteration [t] of a run from [b0] that is still going: the estimate it
    starts from, the update it proposes, and whether the tolerance test
    passes. *)
Definition trial (b0 : ndarray K) (t : nat)
  : result (ndarray K * ndarray K * bool) :=
  (b <- iterate t b0 ;;
   new <- descent_step X y a b ;;
   s <- half_sq_dist new b ;;
   Ok (b, new, kltb s eps))%py.

Definition misses (b0 : ndarray K) (t : nat) : Prop :=
  exists b new, trial b0 t = Ok (b, new, false).


(** How a run of [len] iterations numbered from [k] ends. *)
Inductive verdict : Type :=
| Converged (t : nat) (b new : ndarray K)
| Exhausted (b : ndarray K)
| Raised (t : nat) (e : exn).

Fixpoint descend (len k : nat) (b : ndarray K) : verdict :=
  match len with
  | 0 => Exhausted b
  | S len' =>
      match descent_step X y a b with
      | Err e => Raised k e
      | Ok new =>
          match half_sq_dist new b with
          | Err e => Raised k e
          | Ok s =>
              if kltb s eps then Converged k b new
              else descend len' (S k) new
          end
      end
  end.

End Trajectory.

(** The shapes the optimizer is meant for: [X] has at least one row and as
    many columns as the initial guess has rows, [y] has one entry per row. *)
Definition shapes_fit {K} (X : ndarray K) (y : list K) (b0 : ndarray K) : Prop :=
  nrows X <> 0%nat /\ ncols X = nrows b0 /\ length y = nrows X.

(** ** The iterations of a run, in the cell itself *)

Section Iterations.
Context {K : Type} `{Scalar K}.
Variable X : ndarray K.
Variable y : list K.

(** One pass through the loop with [i] bound to [k]: what [for_i_in] runs for
    the index [k]. *)
Definition iteration (k : nat) : state K -> state K * ctl unit :=
  (assign (set_i k) ;; tick ;; loop_body X y)%stmt.

(** The cell up to the start of iteration [t] of its loop: the four
    assignments and the iterations before [t]. *)
Definition run_until (a : K) (b0 : ndarray K) (eps : K) (m t : nat)
  : state K -> state K * ctl bool :=
  (assign (set_alpha a) ;;
   assign (set_beta_star b0) ;;
   assign (set_tol eps) ;;
   assign (set_max_iter m) ;;
   for_i_in (seq 0 t) (loop_body X y))%stmt.

(** Iteration [t] of the run from the state [st] is reached, it starts with
    [beta_star] bound to [b], and its first statement binds [beta_star_new]
    to [new]: the run comes to the start of iteration [t] in some state
    [st_t] without having left the loop, goes on from there with the
    iterations [t], [t + 1], ..., and the pass for [t] leaves [new] in
    [beta_star_new]. *)
Definition proposes (a : K) (b0 : ndarray K) (eps : K) (m : nat)
    (st : state K) (t : nat) (b new : ndarray K) : Prop :=
  t < m /\
  exists st_t,
    run_until a b0 eps m t st = (st_t, Val false) /\
    descent_run X y a b0 eps m st =
      for_i_in (seq t (m - t)) (loop_body X y) st_t /\
    alpha (globals st_t) = Some a /\
    beta_star (globals st_t) = Some b /\
    beta_star_new (globals (fst (iteration t st_t))) = Some new.

End Iterations.

(** ** The loss, over the rationals *)

Section Loss.
Local Open Scope Q_scope.

(** [f 0 + ... + f (n-1)] *)
Fixpoint Qsum (n : nat) (f : nat -> Q) : Q :=
  match n with
  | O => 0
  | S m => Qsum m f + f m
  end.

(** Row [r] of [X.b], for column [c] of [b]. *)
Definition predict (X b : ndarray Q) (r c : nat) : Q :=
  Qsum (ncols X) (fun j => item X r j * item b j c).

(** The notebook's loss: [(1/n) * sum_r (y_r - X_r b)^2]. *)
Definition mse (X : ndarray Q) (y : list Q) (b : ndarray Q) : Q :=
  (1 / Qofnat (nrows X)) *
  Qsum (nrows X) (fun r => (nth r y 0 - predict X b r 0) ^ 2).

(** The notebook's gradient of the loss: [(2/n) * X^T (X b - y)]. *)
Definition mse_gradient (X : ndarray Q) (y : list Q) (b : ndarray Q)
    (j c : nat) : Q :=
  (2 / Qofnat (nrows X)) *
  Qsum (nrows X) (fun r => item X r j * (predict X b r c - nth r y 0)).

(** [L] bounds the largest eigenvalue of [X^T X], the norm of that matrix:
    [|X v|^2 <= L |v|^2] for every vector [v]. *)
Definition spectral_bound (X : ndarray Q) (L : Q) : Prop :=
  forall v : nat -> Q,
    Qsum (nrows X) (fun r => Qsum (ncols X) (fun j => item X r j * v j) ^ 2) <=
    L * Qsum (ncols X) (fun j => v j ^ 2).

End Loss.

(** ** One update, over the rationals *)

Section OneStep.
Local Open Scope Q_scope.

Variable X : ndarray Q.
Variable y : list Q.
Variable a : Q.
Variable b : ndarray Q.

(** The residual [X b - y], the sum [X^T (X b - y)], its image under [X],
    the step factor and the updated estimate. *)
Definition residual (r : nat) : Q := predict X b r 0 - nth r y 0.
Definition slope (j : nat) : Q := Qsum (nrows X) (fun r => item X r j * residual r).
Definition slope_image (r : nat) : Q := Qsum (ncols X) (fun j => item X r j * slope j).
Definition step_factor : Q := a * (2 / Qofnat (nrows X)).
Definition updated : ndarray Q := build (nrows b) (ncols b) (update_entry X y a b).

End OneStep.

(** ** Inputs used as examples *)

Section Examples.
Local Open Scope Q_scope.

(** A fresh kernel. *)
Definition start {K} `{Scalar K} : state K := State fresh [] 0.

(** Two observations with the constant column and a feature that is 0, the
    targets 0, and a draw of the initial guess. *)
Definition X2 : ndarray Q := NdArray 2 2 [[1%Q; 0%Q]; [1%Q; 0%Q]].
Definition y2 : list Q := [0%Q; 0%Q].
Definition b2 : ndarray Q := NdArray 2 1 [[1 # 2]; [1 # 2]].

(** The same with a single observation. *)
Definition X_one : ndarray Q := NdArray 1 2 [[1%Q; 0%Q]].
Definition y_one : list Q := [0%Q].

(** The constants the notebook assigns, as the rationals their literals
    spell; the doubles that Python reads from these literals are [alpha_f64]
    and [tol_f64] below. *)
Definition alpha_nb : Q := 5 # 100.
Definition tol_nb : Q := 1 # 1000000000.
Definition max_iter_nb : nat := 50 * 1000.

(** The cell as the notebook has it, in exact arithmetic, for its [X] and
    [y] and a draw [b0] of [np.random.random(size=(2,1))]. *)
Definition notebook_cell (X : ndarray Q) (y : list Q) (b0 : ndarray Q)
  : state Q -> state Q * ctl bool :=
  gradient_descent X y alpha_nb b0 tol_nb max_iter_nb.

(** What an earlier, converged run of the cell leaves in [beta_hat]. *)
Definition stale : ndarray Q := NdArray 2 1 [[0]; [1 # 2]].

End Examples.

(** ** Inputs in doubles

    The literals of the notebook as Python reads them, each the double
    nearest to its decimal expansion. *)

Set Warnings "-inexact-float".

Section Float64Examples.
Import PrimFloat.

(** [alpha = .05] and [tol = 0.000000001]. *)
Definition alpha_f64 : float := 0.05%float.
Definition tol_f64 : float := 0.000000001%float.

(** [X2], [y2] and [b2] in doubles. *)
Definition X2_f64 : ndarray float := NdArray 2 2 [[1; 0]; [1; 0]]%float.
Definition y2_f64 : list float := [0; 0]%float.
Definition b2_f64 : ndarray float := NdArray 2 1 [[0.5]; [0.5]]%float.

(** One observation, one column: the feature 3 and the target [3e15], so
    that the least squares estimate is [1e15]; a learning rate of [.1]. *)
Definition alpha_stall : float := 0.1%float.
Definition X_stall : ndarray float := NdArray 1 1 [[3]]%float.
Definition y_stall : list float := [3000000000000000]%float.
Definition b_stall : ndarray float := NdArray 1 1 [[0.5]]%float.


End Float64Examples.

(** ** The other cells of the notebook

    The cell that generates the data and the cell that solves the normal
    equation:

<<
    X = np.ones((200,2))
    X[:,1] = 3*np.random.randn(200)
    y = 2*X[:,0] + 7*X[:,1] + 4*np.random.randn(200)

    np.linalg.inv(X.transpose().dot(X)).dot(X.transpose()).dot(y)
>>

    They can raise what the descent cell cannot: [IndexError] and numpy's
    [LinAlgError]. *)

Inductive pyerror : Type :=
| Builtin (e : exn)
| IndexError
| LinAlgError.

Inductive answer (A : Type) : Type :=
| Fine (a : A)
| Fails (e : pyerror).
Arguments Fine {A} a.
Arguments Fails {A} e.

Definition abind {A B} (r : answer A) (k : A -> answer B) : answer B :=
  match r with
  | Fine a => k a
  | Fails e => Fails e
  end.

Definition lift {A} (r : result A) : answer A :=
  match r with
  | Ok a => Fine a
  | Err e => Fails (Builtin e)
  end.

Declare Scope cell_scope.
Delimit Scope cell_scope with cell.
Notation "x <- r ;; k" := (abind r (fun x => k))
  (at level 61, r at next level, right associativity) : cell_scope.

Section Cells.
Context {K : Type} `{Scalar K}.

(** [np.ones((n,m))] *)
Definition np_ones (n m : nat) : ndarray K := build n m (fun _ _ => kofnat 1).

(** [np.random.randn(n)], for the values [draw 0], [draw 1], ... that the
    generator gives. *)
Definition randn (n : nat) (draw : nat -> K) : list K := map draw (seq 0 n).

(** [s * v] for a scalar [s] and a one-dimensional array [v]. *)
Definition vec_scale (s : K) (v : list K) : list K := map (kmul s) v.

(** [u + v] on one-dimensional arrays, with broadcasting. *)
Definition vec_add (u v : list K) : result (list K) :=
  if length u =? length v
  then Ok (map (fun k => kadd (nth k u kzero) (nth k v kzero)) (seq 0 (length u)))
  else if length u =? 1 then Ok (map (fun x => kadd (nth 0 u kzero) x) v)
  else if length v =? 1 then Ok (map (fun x => kadd x (nth 0 v kzero)) u)
  else Err ValueError.

(** [A[:,c]] *)
Definition column (A : ndarray K) (c : nat) : answer (list K) :=
  if c <? ncols A
  then Fine (map (fun r => item A r c) (seq 0 (nrows A)))
  else Fails IndexError.

(** [A[:,c] = v]: the array with its column [c] overwritten. *)
Definition set_column (A : ndarray K) (c : nat) (v : list K) : answer (ndarray K) :=
  if c <? ncols A
  then
    if length v =? nrows A
    then Fine (build (nrows A) (ncols A)
                 (fun r k => if k =? c then nth r v kzero else item A r k))
    else if length v =? 1
    then Fine (build (nrows A) (ncols A)
                 (fun r k => if k =? c then nth 0 v kzero else item A r k))
    else Fails (Builtin ValueError)
  else Fails IndexError.

(** The data cell for [n] observations ([n] is 200 in the notebook) and the
    values [z] and [e] of its two calls of [np.random.randn]. *)
Definition generate_data (n : nat) (z e : nat -> K)
  : answer (ndarray K * list K) :=
  (X <- set_column (np_ones n 2) 1 (vec_scale (kofnat 3) (randn n z)) ;;
   x0 <- column X 0 ;;
   x1 <- column X 1 ;;
   s <- lift (vec_add (vec_scale (kofnat 2) x0) (vec_scale (kofnat 7) x1)) ;;
   y <- lift (vec_add s (vec_scale (kofnat 4) (randn n e))) ;;
   Fine (X, y))%cell.

(** [A.dot(v)] for a one-dimensional array [v]. *)
Definition np_dot_1d (A : ndarray K) (v : list K) : result (list K) :=
  if ncols A =? length v
  then Ok (map (fun r => sigma (ncols A) (fun k => kmul (item A r k) (nth k v kzero)))
             (seq 0 (nrows A)))
  else Err ValueError.

End Cells.

Section NormalEquation.
Local Open Scope Q_scope.

(** Column index [c] of a matrix whose column [j] has been struck out. *)
Definition skip (j c : nat) : nat := if (c <? j)%nat then c else S c.

(** The determinant of the [n] by [n] matrix with entries [f], expanded along
    its first row. *)
Fixpoint det_fun (n : nat) (f : nat -> nat -> Q) : Q :=
  match n with
  | O => 1
  | S m =>
      Qsum (S m) (fun j =>
        (if Nat.even j then 1 else - (1)) * f O j *
        det_fun m (fun r c => f (S r) (skip j c)))
  end.

(** The cofactor of entry [(r, c)]. *)
Definition cofactor (n : nat) (f : nat -> nat -> Q) (r c : nat) : Q :=
  (if Nat.even (r + c) then 1 else - (1)) *
  det_fun (n - 1) (fun r' c' => f (skip r r') (skip c c')).

(** [np.linalg.inv(A)] in exact arithmetic, where the inverse is the
    transposed matrix of cofactors over the determinant: [LinAlgError] when
    [A] is not square or is singular.  numpy inverts in doubles, by
    elimination, and raises only when a pivot is exactly zero: its result is
    this one up to rounding, and what is proved of this definition is proved
    of the cell in exact arithmetic only. *)
Definition np_linalg_inv (A : ndarray Q) : answer (ndarray Q) :=
  if (nrows A =? ncols A)%nat
  then
    if Qeq_bool (det_fun (nrows A) (item A)) 0
    then Fails LinAlgError
    else Fine (build (nrows A) (nrows A)
                 (fun r c => Qred (cofactor (nrows A) (item A) c r /
                                   det_fun (nrows A) (item A))))
  else Fails LinAlgError.

(** [np.linalg.inv(X.transpose().dot(X)).dot(X.transpose()).dot(y)] *)
Definition normal_equation (X : ndarray Q) (y : list Q) : answer (list Q) :=
  (G <- lift (np_dot (np_transpose X) X) ;;
   B <- np_linalg_inv G ;;
   P <- lift (np_dot B (np_transpose X)) ;;
   lift (np_dot_1d P y))%cell.

(** The coefficients behind the generated data: [y = 2 + 7x + epsilon]. *)
Definition beta_true : list Q := [2; 7].

(** Entry [(j, k)] of [X^T X] and entry [j] of [X^T y]. *)
Definition gram (X : ndarray Q) (j k : nat) : Q :=
  Qsum (nrows X) (fun r => item X r j * item X r k).
Definition moment (X : ndarray Q) (y : list Q) (j : nat) : Q :=
  Qsum (nrows X) (fun r => item X r j * nth r y 0).

End NormalEquation.

(** ** Arrays: entries and shapes *)

Section ArrayFacts.
Context {K : Type} `{Scalar K}.

Lemma item_build (n m : nat) (f : nat -> nat -> K) (r c : nat) :
  r < n -> c < m -> item (build n m f) r c = f r c.
Proof.
  intros Hr Hc. unfold item, build. cbn [rows].
  rewrite (nth_indep _ [] (map (f 0) (seq 0 m))) by (rewrite length_map, length_seq; lia).
  rewrite (map_nth (fun r => map (f r) (seq 0 m)) (seq 0 n) 0 r).
  rewrite seq_nth by lia. cbn [Nat.add].
  rewrite (nth_indep _ kzero (f r 0)) by (rewrite length_map, length_seq; lia).
  rewrite (map_nth (f r) (seq 0 m) 0 c).
  rewrite seq_nth by lia. reflexivity.
Qed.

Lemma sigma_ext (n : nat) (f g : nat -> K) :
  (forall k, k < n -> f k = g k) -> sigma n f = sigma n g.
Proof.
  induction n as [|n IH]; intros E; cbn; [reflexivity|].
  rewrite IH by (intros; apply E; lia). rewrite E by lia. reflexivity.
Qed.

Lemma stretch_id (dim idx : nat) : idx < dim -> stretch dim idx = idx.
Proof.
  unfold stretch. intros L. destruct (Nat.eqb_spec dim 1); lia.
Qed.

Lemma broadcast_dim_refl (a : nat) : broadcast_dim a a = Some a.
Proof. unfold broadcast_dim. rewrite Nat.eqb_refl. reflexivity. Qed.

Lemma broadcast_dim_one (a : nat) : broadcast_dim a 1 = Some a.
Proof.
  unfold broadcast_dim. destruct (Nat.eqb_spec a 1) as [->|N]; [reflexivity|].
  cbn. destruct (Nat.eqb_spec a 1); [lia|reflexivity].
Qed.

Lemma np_sub_same_shape (A B : ndarray K) :
  nrows A = nrows B -> ncols A = ncols B ->
  exists D, np_sub A B = Ok D /\ nrows D = nrows B /\ ncols D = ncols B /\
    forall r c, r < nrows B -> c < ncols B ->
      item D r c = ksub (item A r c) (item B r c).
Proof.
  intros Er Ec. unfold np_sub. rewrite Er, Ec, !broadcast_dim_refl.
  eexists. split; [reflexivity|]. cbn [nrows ncols]. repeat split.
  intros r c Hr Hc. rewrite item_build by assumption.
  rewrite !stretch_id by assumption. reflexivity.
Qed.

Lemma item_reshape_column (v : list K) (r : nat) :
  item (reshape_column v) r 0 = nth r v kzero.
Proof.
  unfold item, reshape_column. cbn [rows]. revert r.
  induction v as [|x v IH]; intros [|r]; cbn; try reflexivity. apply IH.
Qed.

Lemma np_dot_ok (A B : ndarray K) :
  ncols A = nrows B ->
  np_dot A B =
  Ok (build (nrows A) (ncols B)
        (fun r c => sigma (ncols A) (fun k => kmul (item A r k) (item B k c)))).
Proof. intros E. unfold np_dot. rewrite E, Nat.eqb_refl. reflexivity. Qed.

Lemma np_sub_ok (A B : ndarray K) (n m : nat) :
  broadcast_dim (nrows A) (nrows B) = Some n ->
  broadcast_dim (ncols A) (ncols B) = Some m ->
  np_sub A B =
  Ok (build n m (fun r c =>
        ksub (item A (stretch (nrows A) r) (stretch (ncols A) c))
             (item B (stretch (nrows B) r) (stretch (ncols B) c)))).
Proof. intros En Em. unfold np_sub. rewrite En, Em. reflexivity. Qed.

Lemma np_sub_shape (A B D : ndarray K) :
  np_sub A B = Ok D ->
  broadcast_dim (nrows A) (nrows B) = Some (nrows D) /\
  broadcast_dim (ncols A) (ncols B) = Some (ncols D).
Proof.
  unfold np_sub.
  destruct (broadcast_dim (nrows A) (nrows B)) as [n|]; [|discriminate].
  destruct (broadcast_dim (ncols A) (ncols B)) as [m|]; [|discriminate].
  intros E. injection E as <-. split; reflexivity.
Qed.

Lemma np_dot_shape (A B D : ndarray K) :
  np_dot A B = Ok D ->
  ncols A = nrows B /\ nrows D = nrows A /\ ncols D = ncols B.
Proof.
  unfold np_dot. destruct (Nat.eqb_spec (ncols A) (nrows B)); [|discriminate].
  intros E. injection E as <-. repeat split. assumption.
Qed.

Lemma build_ext (n m : nat) (f g : nat -> nat -> K) :
  (forall r c, r < n -> c < m -> f r c = g r c) -> build n m f = build n m g.
Proof.
  intros E. unfold build. f_equal.
  apply map_ext_in. intros r Hr. apply in_seq in Hr.
  apply map_ext_in. intros c Hc. apply in_seq in Hc.
  apply E; lia.
Qed.

(** The update is computed when the shapes fit: [X] has at least one row and
    as many columns as the estimate has rows, and [y] has one entry per row
    of [X], or a single entry, which numpy then uses for every row. *)
Lemma descent_step_defined (X : ndarray K) (y : list K) (a : K) (b : ndarray K) :
  nrows X <> 0 -> ncols X = nrows b ->
  length y = nrows X \/ length y = 1 ->
  descent_step X y a b = Ok (build (nrows b) (ncols b) (update_entry X y a b)).
Proof.
  intros NZ Eb Ey. unfold descent_step, int_truediv, len.
  destruct (Nat.eqb_spec (nrows X) 0) as [Z|_]; [contradiction|]. cbn [rbind].
  rewrite (np_dot_ok X b Eb). cbn [rbind].
  assert (Bd : broadcast_dim (nrows X) (length y) = Some (nrows X)).
  { destruct Ey as [->| ->]; [apply broadcast_dim_refl|apply broadcast_dim_one]. }
  erewrite np_sub_ok; [|exact Bd|exact (broadcast_dim_one (ncols b))].
  cbn [rbind]. rewrite np_dot_ok by reflexivity. cbn [rbind].
  erewrite np_sub_ok;
    [|rewrite <- Eb; exact (broadcast_dim_refl (ncols X))
     |exact (broadcast_dim_refl (ncols b))].
  f_equal. rewrite <- Eb. apply build_ext. intros r c Hr Hc.
  unfold update_entry.
  change (nrows (np_scale _ _)) with (ncols X).
  change (ncols (np_scale _ _)) with (ncols b).
  rewrite (stretch_id (ncols X) r Hr), (stretch_id (ncols b) c Hc). f_equal.
  unfold np_scale. rewrite (item_build _ _ _ r c Hr Hc). f_equal.
  rewrite (item_build _ _ _ r c Hr Hc).
  apply sigma_ext. intros k Hk.
  unfold np_transpose. rewrite (item_build _ _ _ r k Hr Hk). f_equal.
  rewrite (item_build _ _ _ k c Hk Hc).
  change (nrows (build (nrows X) (ncols b) _)) with (nrows X).
  change (ncols (build (nrows X) (ncols b) _)) with (ncols b).
  change (nrows (reshape_column y)) with (length y).
  change (ncols (reshape_column y)) with 1.
  rewrite (stretch_id (nrows X) k Hk), (stretch_id (ncols b) c Hc).
  rewrite (item_build _ _ _ k c Hk Hc).
  change (stretch 1 c) with 0. rewrite item_reshape_column. reflexivity.
Qed.

(** A [y] whose length is neither the number of rows of [X] nor 1 makes
    numpy raise. *)
Lemma descent_step_mismatch (X : ndarray K) (y : list K) (a : K) (b : ndarray K) :
  nrows X <> 0 -> ncols X = nrows b ->
  length y <> nrows X -> length y <> 1 ->
  descent_step X y a b = Err ValueError.
Proof.
  intros NZ Eb Ny N1. unfold descent_step, int_truediv, len.
  destruct (Nat.eqb_spec (nrows X) 0) as [Z|_]; [contradiction|]. cbn [rbind].
  rewrite (np_dot_ok X b Eb). cbn [rbind].
  unfold np_sub at 1.
  change (nrows (build (nrows X) (ncols b) _)) with (nrows X).
  change (ncols (build (nrows X) (ncols b) _)) with (ncols b).
  change (nrows (reshape_column y)) with (length y).
  change (ncols (reshape_column y)) with 1.
  rewrite broadcast_dim_one. unfold broadcast_dim at 1.
  destruct (Nat.eqb_spec (nrows X) (length y)) as [E|_]; [congruence|].
  destruct (Nat.eqb_spec (nrows X) 1) as [E1|_].
  - cbn [rbind]. unfold np_dot.
    change (ncols (np_transpose X)) with (nrows X).
    change (nrows (build (length y) (ncols b) _)) with (length y).
    destruct (Nat.eqb_spec (nrows X) (length y)) as [E|_]; [congruence|].
    reflexivity.
  - destruct (Nat.eqb_spec (length y) 1) as [E|_]; [contradiction|]. reflexivity.
Qed.

End ArrayFacts.

(** ** The loop, iteration by iteration *)

Section Loop.
Context {K : Type} `{Scalar K}.
Variable X : ndarray K.
Variable y : list K.
Variable a : K.
Variable eps : K.
Variable M : nat.

Lemma body_step (k : nat) (g : namespace K) out cnt (b : ndarray K) :
  ready a eps M g b ->
  (assign (set_i k) ;; tick ;; loop_body X y)%stmt (State g out cnt) =
  match descent_step X y a b with
  | Err e => (State (set_i k g) out (S cnt), Exc e)
  | Ok new =>
      match half_sq_dist new b with
      | Err e => (State (set_beta_star_new new (set_i k g)) out (S cnt), Exc e)
      | Ok s =>
          if kltb s eps
          then (State (Namespace (alpha g) (Some b) (tol g) (max_iter g)
                         (Some k) (Some new) (Some new)) out (S cnt), Brk)
          else (State (Namespace (alpha g) (Some new) (tol g) (max_iter g)
                         (Some k) (Some new) (beta_hat g))
                      (out ++ if k + 1 =? M then [max_iter_notice] else [])
                      (S cnt), Val tt)
      end
  end.
Proof.
  destruct g as [ga gb gt gm gi gn gh]. unfold ready. cbn.
  intros (-> & -> & -> & ->).
  unfold bind, assign, tick, loop_body, eval, update_expr, tolerance_expr,
    last_iteration_expr, bind, set_i, set_beta_star_new. cbn.
  destruct (descent_step X y a b) as [new|e]; cbn; [|reflexivity].
  destruct (half_sq_dist new b) as [s|e]; cbn; [|reflexivity].
  destruct (kltb s eps); cbn; [reflexivity|].
  destruct (k + 1 =? M); cbn; rewrite ?app_nil_r; reflexivity.
Qed.

Lemma descend_range len : forall k b,
  match descend X y a eps len k b with
  | Converged t _ _ => k <= t < k + len
  | Exhausted _ => True
  | Raised t _ => k <= t < k + len
  end.
Proof.
  induction len as [|len IH]; intros k b; cbn; [exact I|].
  destruct (descent_step X y a b) as [new|e]; [|lia].
  destruct (half_sq_dist new b) as [s|e]; [|lia].
  destruct (kltb s eps); [lia|].
  specialize (IH (S k) new). destruct (descend X y a eps len (S k) new); lia.
Qed.

(** The loop on the indices [k], ..., [k + len - 1], summarised. *)
Lemma loop_descend len : forall k b g out cnt,
  ready a eps M g b -> k + len = M ->
  match descend X y a eps len k b with
  | Converged t bt new =>
      for_i_in (seq k len) (loop_body X y) (State g out cnt) =
      (State (Namespace (alpha g) (Some bt) (tol g) (max_iter g)
                (Some t) (Some new) (Some new)) out (cnt + S (t - k)),
       Val true)
  | Exhausted bM =>
      for_i_in (seq k len) (loop_body X y) (State g out cnt) =
      (State (match len with
              | 0 => g
              | S _ => Namespace (alpha g) (Some bM) (tol g) (max_iter g)
                         (Some (M - 1)) (Some bM) (beta_hat g)
              end)
             (out ++ match len with 0 => [] | S _ => [max_iter_notice] end)
             (cnt + len),
       Val false)
  | Raised t e =>
      exists g',
      for_i_in (seq k len) (loop_body X y) (State g out cnt) =
      (State g' out (cnt + S (t - k)), Exc e) /\
      alpha g' = alpha g /\ tol g' = tol g /\ max_iter g' = max_iter g
  end.
Proof.
  induction len as [|len IH]; intros k b g out cnt R E.
  - cbn. rewrite app_nil_r, Nat.add_0_r. reflexivity.
  - cbn [descend seq for_i_in]. rewrite (body_step k g out cnt b R).
    destruct (descent_step X y a b) as [new|e].
    2:{ eexists. rewrite Nat.sub_diag, Nat.add_1_r.
        split; [reflexivity|]. repeat split. }
    destruct (half_sq_dist new b) as [s|e].
    2:{ eexists. rewrite Nat.sub_diag, Nat.add_1_r.
        split; [reflexivity|]. repeat split. }
    destruct (kltb s eps).
    { rewrite Nat.sub_diag, Nat.add_1_r. reflexivity. }
    set (g' := Namespace (alpha g) (Some new) (tol g) (max_iter g)
                 (Some k) (Some new) (beta_hat g)).
    assert (R' : ready a eps M g' new).
    { destruct R as (Ra & Rt & Rm & _). repeat split; assumption. }
    assert (E' : S k + len = M) by lia.
    pose proof (descend_range len (S k) new) as Rg.
    specialize (IH (S k) new g' (out ++ if k + 1 =? M then [max_iter_notice] else [])
                   (S cnt) R' E').
    destruct (descend X y a eps len (S k) new) as [t bt nw|bM|t e] eqn:D.
    + rewrite IH. cbn [alpha tol max_iter g'].
      destruct (Nat.eqb_spec (k + 1) M); [lia|]. rewrite app_nil_r.
      do 2 f_equal. lia.
    + rewrite IH. destruct len as [|len'].
      * cbn in D. injection D as <-.
        destruct (Nat.eqb_spec (k + 1) M); [|lia].
        rewrite app_nil_r. subst g'. replace (M - 1) with k by lia.
        do 2 f_equal. lia.
      * destruct (Nat.eqb_spec (k + 1) M); [lia|].
        rewrite app_nil_r. subst g'. cbn [alpha tol max_iter beta_hat].
        do 2 f_equal. lia.
    + destruct IH as (g'' & IH & Ia & It & Im). exists g''. rewrite IH.
      destruct (Nat.eqb_spec (k + 1) M); [lia|]. rewrite app_nil_r.
      split; [do 2 f_equal; lia|]. subst g'. cbn in Ia, It, Im.
      repeat split; assumption.
Qed.

Lemma trial_S (b : ndarray K) (t : nat) :
  trial X y a eps b (S t) = (b' <- descent_step X y a b ;; trial X y a eps b' t)%py.
Proof. unfold trial. cbn. destruct (descent_step X y a b); reflexivity. Qed.

Lemma misses_S (b new : ndarray K) (u : nat) :
  descent_step X y a b = Ok new -> misses X y a eps new u -> misses X y a eps b (S u).
Proof.
  intros D (bu & nu & T). exists bu, nu. rewrite trial_S, D. exact T.
Qed.

(** What the summary says about the iterations. *)
Lemma descend_sound len : forall k b,
  match descend X y a eps len k b with
  | Converged t bt new =>
      trial X y a eps b (t - k) = Ok (bt, new, true) /\ forall u, u < t - k -> misses X y a eps b u
  | Exhausted bM =>
      iterate X y a len b = Ok bM /\ forall u, u < len -> misses X y a eps b u
  | Raised t e =>
      trial X y a eps b (t - k) = Err e /\ forall u, u < t - k -> misses X y a eps b u
  end.
Proof.
  induction len as [|len IH]; intros k b; cbn [descend].
  - split; [reflexivity|intros; lia].
  - pose proof (descend_range len (S k)) as Rg.
    destruct (descent_step X y a b) as [new|e] eqn:D.
    2:{ rewrite Nat.sub_diag. unfold trial. cbn. rewrite D.
        split; [reflexivity|intros; lia]. }
    destruct (half_sq_dist new b) as [s|e] eqn:Hs.
    2:{ rewrite Nat.sub_diag. unfold trial. cbn. rewrite D. cbn. rewrite Hs.
        split; [reflexivity|intros; lia]. }
    destruct (kltb s eps) eqn:L.
    { rewrite Nat.sub_diag. unfold trial. cbn. rewrite D. cbn. rewrite Hs. cbn.
      rewrite L. split; [reflexivity|intros; lia]. }
    assert (M0 : misses X y a eps b 0).
    { exists b, new. unfold trial. cbn. rewrite D. cbn. rewrite Hs. cbn.
      rewrite L. reflexivity. }
    specialize (IH (S k) new). specialize (Rg new).
    destruct (descend X y a eps len (S k) new) as [t bt nw|bM|t e].
    + destruct IH as [T Ms]. replace (t - k) with (S (t - S k)) by lia.
      rewrite trial_S, D. split; [exact T|].
      intros [|u] Hu; [exact M0|]. eapply misses_S; [exact D|]. apply Ms. lia.
    + destruct IH as [T Ms]. cbn. rewrite D. split; [exact T|].
      intros [|u] Hu; [exact M0|]. eapply misses_S; [exact D|]. apply Ms. lia.
    + destruct IH as [T Ms]. replace (t - k) with (S (t - S k)) by lia.
      rewrite trial_S, D. split; [exact T|].
      intros [|u] Hu; [exact M0|]. eapply misses_S; [exact D|]. apply Ms. lia.
Qed.

(** An update that is computed has the shape of the estimate it updates,
    so the distance between the two is computed too. *)
Lemma descent_step_shape (b new : ndarray K) :
  descent_step X y a b = Ok new ->
  nrows new = nrows b /\ ncols new = ncols b.
Proof.
  unfold descent_step.
  destruct (int_truediv 2 (len X)) as [q|]; [|discriminate]. cbn [rbind].
  destruct (np_dot X b) as [Xb|] eqn:E1; [|discriminate]. cbn [rbind].
  destruct (np_sub Xb (reshape_column y)) as [r|] eqn:E2; [|discriminate].
  cbn [rbind].
  destruct (np_dot (np_transpose X) r) as [d|] eqn:E3; [|discriminate].
  cbn [rbind]. intros E4.
  apply np_dot_shape in E1. destruct E1 as (I1 & R1 & C1).
  apply np_sub_shape in E2. destruct E2 as (_ & C2).
  apply np_dot_shape in E3. destruct E3 as (_ & R3 & C3).
  apply np_sub_shape in E4. destruct E4 as (R4 & C4).
  cbn in *. rewrite C1, broadcast_dim_one in C2. injection C2 as C2.
  rewrite R3, I1, broadcast_dim_refl in R4. injection R4 as R4.
  rewrite C3, <- C2, broadcast_dim_refl in C4. injection C4 as C4.
  split; congruence.
Qed.

Lemma half_sq_dist_defined (b new : ndarray K) :
  descent_step X y a b = Ok new -> exists s, half_sq_dist new b = Ok s.
Proof.
  intros D. destruct (descent_step_shape b new D) as [Er Ec].
  destruct (np_sub_same_shape new b Er Ec) as (d & E & _).
  unfold half_sq_dist. rewrite E. cbn. eexists. reflexivity.
Qed.

Lemma iterate_S (n : nat) : forall b,
  iterate X y a (S n) b = (bn <- iterate X y a n b ;; descent_step X y a bn)%py.
Proof.
  induction n as [|n IH]; intros b.
  - cbn. destruct (descent_step X y a b); reflexivity.
  - change (iterate X y a (S (S n)) b)
      with (b' <- descent_step X y a b ;; iterate X y a (S n) b')%py.
    cbn [iterate]. destruct (descent_step X y a b) as [b'|]; cbn [rbind];
      [apply IH|reflexivity].
Qed.



(** The summary is determined by the first iteration that meets X y a eps the
    tolerance. *)
Lemma descend_first_meet (b0 b new : ndarray K) (t : nat) :
  t < M -> trial X y a eps b0 t = Ok (b, new, true) ->
  (forall u, u < t -> misses X y a eps b0 u) ->
  descend X y a eps M 0 b0 = Converged t b new.
Proof.
  intros Lt T Ms.
  pose proof (descend_range M 0 b0) as Rg.
  pose proof (descend_sound M 0 b0) as Sd.
  destruct (descend X y a eps M 0 b0) as [t' bt' new'|bM|t' e];
    rewrite ?Nat.sub_0_r in Sd.
  - destruct Sd as [T' Ms'].
    destruct (Nat.lt_trichotomy t t') as [L|[<-|L]].
    + destruct (Ms' t L) as (? & ? & T''). congruence.
    + congruence.
    + destruct (Ms t' L) as (? & ? & T''). congruence.
  - destruct Sd as [_ Ms']. destruct (Ms' t Lt) as (? & ? & T''). congruence.
  - destruct Sd as [T' Ms'].
    destruct (Nat.lt_trichotomy t t') as [L|[<-|L]].
    + destruct (Ms' t L) as (? & ? & T''). congruence.
    + congruence.
    + destruct (Ms t' L) as (? & ? & T''). congruence.
Qed.

(** The summary of a run in which no iteration meets X y a eps the tolerance. *)
Lemma descend_all_miss (b0 : ndarray K) :
  (forall u, u < M -> misses X y a eps b0 u) ->
  exists bM, descend X y a eps M 0 b0 = Exhausted bM /\ iterate X y a M b0 = Ok bM.
Proof.
  intros Ms.
  pose proof (descend_range M 0 b0) as Rg.
  pose proof (descend_sound M 0 b0) as Sd.
  destruct (descend X y a eps M 0 b0) as [t' bt' new'|bM|t' e];
    rewrite ?Nat.sub_0_r in Sd.
  - destruct Sd as [T' _]. destruct (Ms t' ltac:(lia)) as (? & ? & T''). congruence.
  - exists bM. split; [reflexivity|apply Sd].
  - destruct Sd as [T' _]. destruct (Ms t' ltac:(lia)) as (? & ? & T''). congruence.
Qed.

(** *** Runs on inputs whose shapes fit *)

Lemma iterate_defined :
  nrows X <> 0 -> length y = nrows X \/ length y = 1 ->
  forall t b, ncols X = nrows b ->
  exists bt, iterate X y a t b = Ok bt /\ nrows bt = nrows b /\ ncols bt = ncols b.
Proof.
  intros NZ Ey. induction t as [|t IH]; intros b Eb.
  - exists b. repeat split.
  - cbn [iterate]. rewrite (descent_step_defined X y a b NZ Eb Ey). cbn [rbind].
    destruct (IH (build (nrows b) (ncols b) (update_entry X y a b)) Eb)
      as (bt & It & Rt & Ct).
    exists bt. split; [exact It|]. split; assumption.
Qed.

Lemma trial_defined :
  nrows X <> 0 -> length y = nrows X \/ length y = 1 ->
  forall t b0, ncols X = nrows b0 ->
  exists b p,
    trial X y a eps b0 t = Ok (b, build (nrows b) (ncols b) (update_entry X y a b), p) /\
    nrows b = nrows b0 /\ ncols b = ncols b0.
Proof.
  intros NZ Ey t b0 Eb.
  destruct (iterate_defined NZ Ey t b0 Eb) as (b & It & Rt & Ct).
  assert (Eb' : ncols X = nrows b) by congruence.
  pose proof (descent_step_defined X y a b NZ Eb' Ey) as D.
  destruct (half_sq_dist_defined b _ D) as [s Hs].
  exists b, (kltb s eps). unfold trial. rewrite It. cbn [rbind].
  rewrite D. cbn [rbind]. rewrite Hs. cbn [rbind]. repeat split; assumption.
Qed.

Lemma descend_defined (b0 : ndarray K) :
  nrows X <> 0 -> length y = nrows X \/ length y = 1 -> ncols X = nrows b0 ->
  forall t e, descend X y a eps M 0 b0 <> Raised t e.
Proof.
  intros NZ Ey Eb t e D.
  pose proof (descend_sound M 0 b0) as Sd. rewrite D in Sd.
  destruct Sd as [T _].
  destruct (trial_defined NZ Ey (t - 0) b0 Eb) as (b & p & T' & _).
  congruence.
Qed.

(** *** The cell as a whole *)

Lemma descent_run_verdict (b0 : ndarray K) (g : namespace K) out cnt :
  match descend X y a eps M 0 b0 with
  | Converged t bt new =>
      descent_run X y a b0 eps M (State g out cnt) =
      (State (Namespace (Some a) (Some bt) (Some eps) (Some M)
                (Some t) (Some new) (Some new)) out (cnt + S t),
       Val true)
  | Exhausted bM =>
      descent_run X y a b0 eps M (State g out cnt) =
      (State (match M with
              | 0 => Namespace (Some a) (Some b0) (Some eps) (Some M)
                       (i g) (beta_star_new g) (beta_hat g)
              | S _ => Namespace (Some a) (Some bM) (Some eps) (Some M)
                         (Some (M - 1)) (Some bM) (beta_hat g)
              end)
             (out ++ match M with 0 => [] | S _ => [max_iter_notice] end)
             (cnt + M),
       Val false)
  | Raised t e =>
      exists g',
      descent_run X y a b0 eps M (State g out cnt) =
      (State g' out (cnt + S t), Exc e) /\
      alpha g' = Some a /\ tol g' = Some eps /\ max_iter g' = Some M
  end.
Proof.
  set (g0 := Namespace (Some a) (Some b0) (Some eps) (Some M)
               (i g) (beta_star_new g) (beta_hat g)).
  assert (R : ready a eps M g0 b0) by (repeat split).
  pose proof (loop_descend M 0 b0 g0 out cnt R eq_refl) as L.
  assert (E : descent_run X y a b0 eps M (State g out cnt) =
              for_i_in (seq 0 M) (loop_body X y) (State g0 out cnt))
    by reflexivity.
  rewrite E. destruct (descend X y a eps M 0 b0) as [t bt new|bM|t e].
  - rewrite L, Nat.sub_0_r. reflexivity.
  - rewrite L. destruct M; reflexivity.
  - destruct L as (g' & L & La & Lt & Lm). exists g'.
    rewrite L, Nat.sub_0_r. repeat split; assumption.
Qed.

Lemma report_eq (g : namespace K) out cnt :
  report (State g out cnt) =
  match i g with
  | None => (State g out cnt, Exc (NameError "i"))
  | Some k =>
      match beta_hat g with
      | None =>
          (State g (out ++ [went_through k; beta_hat_label]) cnt,
           Exc (NameError "beta_hat"))
      | Some h =>
          (State g (out ++ [went_through k; beta_hat_label; [PArr h]]) cnt,
           Val tt)
      end
  end.
Proof.
  unfold report, bind, eval, print, name. cbn.
  destruct (i g) as [k|]; [|reflexivity]. cbn.
  destruct (beta_hat g) as [h|]; cbn; rewrite <- !app_assoc; reflexivity.
Qed.

Lemma gradient_descent_converged (b0 bt new : ndarray K) (t : nat) g out cnt :
  descend X y a eps M 0 b0 = Converged t bt new ->
  gradient_descent X y a b0 eps M (State g out cnt) =
  (State (Namespace (Some a) (Some bt) (Some eps) (Some M)
            (Some t) (Some new) (Some new))
         (out ++ [went_through t; beta_hat_label; [PArr new]]) (cnt + S t),
   Val true).
Proof.
  intros D. pose proof (descent_run_verdict b0 g out cnt) as V.
  rewrite D in V. unfold gradient_descent, bind at 1. rewrite V.
  unfold bind. rewrite report_eq. reflexivity.
Qed.

Lemma gradient_descent_exhausted (b0 bM : ndarray K) g out cnt :
  0 < M -> descend X y a eps M 0 b0 = Exhausted bM ->
  gradient_descent X y a b0 eps M (State g out cnt) =
  match beta_hat g with
  | None =>
      (State (Namespace (Some a) (Some bM) (Some eps) (Some M)
                (Some (M - 1)) (Some bM) None)
             (out ++ [max_iter_notice; went_through (M - 1); beta_hat_label])
             (cnt + M),
       Exc (NameError "beta_hat"))
  | Some h =>
      (State (Namespace (Some a) (Some bM) (Some eps) (Some M)
                (Some (M - 1)) (Some bM) (Some h))
             (out ++ [max_iter_notice; went_through (M - 1); beta_hat_label;
                      [PArr h]])
             (cnt + M),
       Val false)
  end.
Proof.
  intros Pos D. pose proof (descent_run_verdict b0 g out cnt) as V.
  rewrite D in V. unfold gradient_descent, bind at 1. rewrite V.
  destruct M as [|m]; [lia|]. unfold bind. rewrite report_eq. cbn [i beta_hat].
  destruct (beta_hat g); rewrite <- app_assoc; reflexivity.
Qed.

Lemma gradient_descent_raised (b0 : ndarray K) (t : nat) (e : exn) g out cnt :
  descend X y a eps M 0 b0 = Raised t e ->
  exists g', gradient_descent X y a b0 eps M (State g out cnt) =
             (State g' out (cnt + S t), Exc e).
Proof.
  intros D. pose proof (descent_run_verdict b0 g out cnt) as V.
  rewrite D in V. destruct V as (g' & V & _). exists g'.
  unfold gradient_descent, bind at 1. rewrite V. reflexivity.
Qed.

(** With a cap of zero the body never runs and [i] is whatever an earlier
    run of the cell left. *)
Lemma gradient_descent_no_iteration (b0 : ndarray K) g out cnt :
  M = 0 ->
  exists g' more,
    gradient_descent X y a b0 eps M (State g out cnt) =
    (State g' (out ++ more) cnt,
     match i g, beta_hat g with
     | None, _ => Exc (NameError "i")
     | Some _, None => Exc (NameError "beta_hat")
     | Some _, Some _ => Val false
     end) /\
    ~ In max_iter_notice more.
Proof.
  intros Z. pose proof (descent_run_verdict b0 g out cnt) as V.
  destruct M; [|discriminate]. cbn [descend] in V.
  unfold gradient_descent, bind at 1. rewrite V.
  rewrite app_nil_r, Nat.add_0_r. unfold bind. rewrite report_eq. cbn [i beta_hat].
  destruct (i g) as [k|].
  - destruct (beta_hat g) as [h|]; eexists; eexists; (split; [reflexivity|]);
      unfold max_iter_notice, went_through, beta_hat_label; cbn;
      intuition discriminate.
  - exists (Namespace (Some a) (Some b0) (Some eps) (Some 0) None
              (beta_star_new g) (beta_hat g)), [].
    rewrite app_nil_r. split; [reflexivity|]. intros [].
Qed.

End Loop.

Lemma skipn_app_length {A} (l l' : list A) : skipn (length l) (l ++ l') = l'.
Proof. induction l as [|x l IH]; [reflexivity|exact IH]. Qed.

(** ** The loop and its two ways out *)

(** C9: the body of the loop is entered at most [max_iter] times and the
    cell always comes to an end, whatever the inputs. *)
Theorem iteration_cap {K} `{Scalar K} (X : ndarray K) (y : list K)
    (a : K) (b0 : ndarray K) (eps : K) (M : nat) (st : state K) :
  exists st' r,
    gradient_descent X y a b0 eps M st = (st', r) /\
    entered st <= entered st' <= entered st + M.
Proof.
  destruct st as [g out cnt]. cbn [entered].
  pose proof (descend_range X y a eps M 0 b0) as Rg.
  destruct (descend X y a eps M 0 b0) as [t bt new|bM|t e] eqn:D.
  - rewrite (gradient_descent_converged X y a eps M b0 bt new t g out cnt D).
    eexists; eexists; split; [reflexivity|]. cbn. lia.
  - destruct (Nat.eq_dec M 0) as [Z|NZ].
    + destruct (gradient_descent_no_iteration X y a eps M b0 g out cnt Z)
        as (g' & more & E & _).
      rewrite E. eexists; eexists; split; [reflexivity|]. cbn. lia.
    + rewrite (gradient_descent_exhausted X y a eps M b0 bM g out cnt
                 ltac:(lia) D).
      destruct (beta_hat g); eexists; eexists; (split; [reflexivity|]); cbn; lia.
  - destruct (gradient_descent_raised X y a eps M b0 t e g out cnt D) as [g' E].
    rewrite E. eexists; eexists; split; [reflexivity|]. cbn. lia.
Qed.


(** C10: the tolerance test comes before the test of the last iteration: when
    the tolerance is first met in the last permitted iteration the run ends
    as converged and never prints the notice; in every run, a printed notice
    and an exit by [break] exclude each other. *)
Theorem convergence_before_cap {K} `{Scalar K} (X : ndarray K) (y : list K)
    (a : K) (b0 : ndarray K) (eps : K) (M : nat) (st : state K) :
  (forall b new,
     0 < M ->
     trial X y a eps b0 (M - 1) = Ok (b, new, true) ->
     (forall u, u < M - 1 -> misses X y a eps b0 u) ->
     snd (gradient_descent X y a b0 eps M st) = Val true /\
     beta_hat (globals (fst (gradient_descent X y a b0 eps M st))) = Some new /\
     ~ In max_iter_notice (printed_by (gradient_descent X y a b0 eps M) st)) /\
  (In max_iter_notice (printed_by (gradient_descent X y a b0 eps M) st) ->
   snd (gradient_descent X y a b0 eps M st) <> Val true).
Proof.
  destruct st as [g out cnt]. unfold printed_by. cbn [stdout]. split.
  - intros b new Pos T Ms.
    assert (D : descend X y a eps M 0 b0 = Converged (M - 1) b new)
      by (apply descend_first_meet; [lia|assumption..]).
    rewrite (gradient_descent_converged X y a eps M b0 b new (M - 1) g out cnt D).
    cbn [fst snd stdout globals beta_hat]. rewrite skipn_app_length.
    repeat split. unfold max_iter_notice, went_through, beta_hat_label. cbn.
    intuition discriminate.
  - destruct (descend X y a eps M 0 b0) as [t bt new|bM|t e] eqn:D.
    + rewrite (gradient_descent_converged X y a eps M b0 bt new t g out cnt D).
      cbn [fst snd stdout]. rewrite skipn_app_length.
      unfold max_iter_notice, went_through, beta_hat_label. cbn.
      intuition discriminate.
    + intros _. destruct (Nat.eq_dec M 0) as [Z|NZ].
      * destruct (gradient_descent_no_iteration X y a eps M b0 g out cnt Z)
          as (g' & more & E' & _).
        rewrite E'. cbn. destruct (i g); [destruct (beta_hat g)|]; discriminate.
      * rewrite (gradient_descent_exhausted X y a eps M b0 bM g out cnt
                   ltac:(lia) D).
        destruct (beta_hat g); discriminate.
    + intros _.
      destruct (gradient_descent_raised X y a eps M b0 t e g out cnt D) as [g' E].
      rewrite E. discriminate.
Qed.

(** ** A target vector of the wrong length *)

Lemma update_entry_broadcast {K} `{Scalar K} (X : ndarray K) (y : list K)
    (a : K) (b : ndarray K) (r c : nat) :
  length y = 1 ->
  update_entry X y a b r c =
  update_entry X (repeat (nth 0 y kzero) (nrows X)) a b r c.
Proof.
  intros E1. unfold update_entry. do 2 f_equal.
  apply sigma_ext. intros k Hk. do 2 f_equal.
  rewrite E1, repeat_length. change (stretch 1 k) with 0.
  rewrite (stretch_id (nrows X) k Hk).
  symmetry.
  rewrite (nth_indep (repeat (nth 0 y kzero) (nrows X)) kzero (nth 0 y kzero))
    by (rewrite repeat_length; exact Hk).
  apply nth_repeat.
Qed.

Lemma descend_broadcast {K} `{Scalar K} (X : ndarray K) (y : list K)
    (a eps : K) :
  nrows X <> 0 -> length y = 1 ->
  forall n k b, ncols X = nrows b ->
  descend X y a eps n k b =
  descend X (repeat (nth 0 y kzero) (nrows X)) a eps n k b.
Proof.
  intros NZ E1 n. induction n as [|n IH]; intros k b Eb; [reflexivity|].
  cbn [descend].
  rewrite (descent_step_defined X y a b NZ Eb (or_intror E1)).
  rewrite (descent_step_defined X _ a b NZ Eb
             (or_introl (repeat_length (nth 0 y kzero) (nrows X)))).
  rewrite (build_ext _ _ _ _
             (fun r c _ _ => update_entry_broadcast X y a b r c E1)).
  destruct (half_sq_dist _ b) as [s|e]; [|reflexivity].
  destruct (kltb s eps); [reflexivity|]. apply IH. exact Eb.
Qed.

(** C8, as the code has it: nothing checks the length of [y] against the
    rows of [X].  When the two differ, numpy raises [ValueError] in the first
    iteration, before anything is printed, unless [y] has exactly one entry:
    then that entry is used for every row and the run goes on as it would
    with [y] filled up to the number of rows. *)
Theorem y_length_mismatch {K} `{Scalar K} (X : ndarray K) (y : list K)
    (a : K) (b0 : ndarray K) (eps : K) (M : nat) (st : state K) :
  nrows X <> 0 -> ncols X = nrows b0 -> 0 < M ->
  length y <> nrows X ->
  (length y <> 1 ->
   snd (gradient_descent X y a b0 eps M st) = Exc ValueError /\
   printed_by (gradient_descent X y a b0 eps M) st = []) /\
  (length y = 1 ->
   gradient_descent X y a b0 eps M st =
   gradient_descent X (repeat (nth 0 y kzero) (nrows X)) a b0 eps M st /\
   snd (gradient_descent X y a b0 eps M st) <> Exc ValueError).
Proof.
  intros NZ Eb Pos Ny. destruct st as [g out cnt]. split.
  - intros N1.
    assert (D : descend X y a eps M 0 b0 = Raised 0 ValueError).
    { destruct M as [|m]; [lia|]. cbn [descend].
      rewrite (descent_step_mismatch X y a b0 NZ Eb Ny N1). reflexivity. }
    destruct (gradient_descent_raised X y a eps M b0 0 ValueError g out cnt D)
      as [g' E].
    unfold printed_by. rewrite E. cbn [fst snd stdout]. split; [reflexivity|].
    apply skipn_all.
  - intros E1.
    pose proof (descend_broadcast X y a eps NZ E1 M 0 b0 Eb) as Db.
    pose proof (descend_defined X y a eps M b0 NZ (or_intror E1) Eb) as Nr.
    destruct (descend X y a eps M 0 b0) as [t bt new|bM|t e] eqn:D.
    + rewrite (gradient_descent_converged X y a eps M b0 bt new t g out cnt D).
      rewrite (gradient_descent_converged X _ a eps M b0 bt new t g out cnt
                 (eq_sym Db)).
      split; [reflexivity|discriminate].
    + rewrite (gradient_descent_exhausted X y a eps M b0 bM g out cnt Pos D).
      rewrite (gradient_descent_exhausted X _ a eps M b0 bM g out cnt Pos
                 (eq_sym Db)).
      split; [reflexivity|]. destruct (beta_hat g); discriminate.
    + destruct (Nr t e eq_refl).
Qed.

(** ** The arithmetic of one update, over the rationals *)

Local Open Scope Q_scope.

(** The operations of the rational instance, as plain operations up to [==]. *)
Ltac q_ops :=
  cbn [kadd ksub kmul kdiv kltb kofnat kzero kpow sigma Q_Scalar];
  rewrite ?Qred_correct.

Lemma Qsum_ext (n : nat) (f g : nat -> Q) :
  (forall k, (k < n)%nat -> f k == g k) -> Qsum n f == Qsum n g.
Proof.
  induction n as [|n IH]; intros E; cbn; [reflexivity|].
  rewrite IH by (intros; apply E; lia). rewrite (E n) by lia. reflexivity.
Qed.

Lemma sigma_Qsum (n : nat) (f g : nat -> Q) :
  (forall k, (k < n)%nat -> f k == g k) -> sigma n f == Qsum n g.
Proof.
  induction n as [|n IH]; intros E; [reflexivity|].
  q_ops. cbn [Qsum].
  rewrite IH by (intros; apply E; lia). rewrite (E n) by lia. reflexivity.
Qed.

Lemma Qsum_plus (n : nat) (f g : nat -> Q) :
  Qsum n (fun k => f k + g k) == Qsum n f + Qsum n g.
Proof. induction n as [|n IH]; cbn; [ring|]. rewrite IH. ring. Qed.

Lemma Qsum_scale (n : nat) (c : Q) (f : nat -> Q) :
  Qsum n (fun k => c * f k) == c * Qsum n f.
Proof. induction n as [|n IH]; cbn; [ring|]. rewrite IH. ring. Qed.

Lemma Qsum_swap (n m : nat) (f : nat -> nat -> Q) :
  Qsum n (fun r => Qsum m (fun c => f r c)) ==
  Qsum m (fun c => Qsum n (fun r => f r c)).
Proof.
  induction n as [|n IH]; cbn.
  - induction m as [|m IHm]; cbn; [reflexivity|]. rewrite <- IHm. ring.
  - rewrite IH, Qsum_plus. reflexivity.
Qed.

Lemma Qsum_nonneg (n : nat) (f : nat -> Q) :
  (forall k, (k < n)%nat -> 0 <= f k) -> 0 <= Qsum n f.
Proof.
  induction n as [|n IH]; intros P; cbn; [lra|].
  specialize (IH ltac:(intros; apply P; lia)). specialize (P n ltac:(lia)). lra.
Qed.

Lemma Qsquare_nonneg (x : Q) : 0 <= x ^ 2.
Proof. nra. Qed.

(** The entries the code computes are the current entries minus the
    learning rate times the gradient. *)
Lemma update_entry_Q (X : ndarray Q) (y : list Q) (a : Q) (b : ndarray Q)
    (r c : nat) :
  length y = nrows X ->
  update_entry X y a b r c == item b r c - a * mse_gradient X y b r c.
Proof.
  intros Ey. unfold update_entry, mse_gradient, predict. q_ops.
  rewrite (sigma_Qsum (nrows X) _
             (fun k => item X k r *
                       (Qsum (ncols X) (fun j => item X k j * item b j c) -
                        nth k y 0))).
  - change (Qofnat 2) with 2. unfold Qdiv. ring.
  - intros k Hk. rewrite !Qred_correct.
    rewrite Ey, (stretch_id (nrows X) k Hk). change (Qofnat 0) with 0.
    rewrite (sigma_Qsum (ncols X) _ (fun j => item X k j * item b j c))
      by (intros; apply Qred_correct).
    reflexivity.
Qed.

(** ** The loss before and after one update *)

Section OneUpdate.
Variable X : ndarray Q.
Variable y : list Q.
Variable a : Q.
Variable b : ndarray Q.
Hypothesis rows_X : nrows X <> 0%nat.
Hypothesis cols_X : ncols X = nrows b.
Hypothesis length_y : length y = nrows X.
Hypothesis column_b : (0 < ncols b)%nat.

Lemma predict_updated (r : nat) :
  predict X (updated X y a b) r 0 == predict X b r 0 - step_factor X a * slope_image X y b r.
Proof.
  unfold predict.
  rewrite (Qsum_ext (ncols X) _
             (fun j => item X r j * item b j 0 +
                       (- step_factor X a) * (item X r j * slope X y b j))).
  - rewrite Qsum_plus, Qsum_scale. unfold slope_image. ring.
  - intros j Hj. unfold updated.
    rewrite (item_build _ _ _ j 0%nat) by (rewrite <- ?cols_X; assumption).
    rewrite (update_entry_Q X y a b j 0 length_y).
    unfold mse_gradient, step_factor, slope, residual, Qdiv. ring.
Qed.

Lemma residual_slope_image :
  Qsum (nrows X) (fun r => residual X y b r * slope_image X y b r) ==
  Qsum (ncols X) (fun j => slope X y b j ^ 2).
Proof.
  transitivity
    (Qsum (nrows X) (fun r =>
       Qsum (ncols X) (fun j => residual X y b r * (item X r j * slope X y b j)))).
  { apply Qsum_ext. intros r _. unfold slope_image. symmetry. apply Qsum_scale. }
  rewrite Qsum_swap. apply Qsum_ext. intros j _.
  transitivity (slope X y b j * Qsum (nrows X) (fun r => item X r j * residual X y b r)).
  - rewrite <- Qsum_scale. apply Qsum_ext. intros r _. ring.
  - unfold slope. ring.
Qed.

(** The sum of squared errors after the update. *)
Lemma squared_error_updated :
  Qsum (nrows X) (fun r => (nth r y 0 - predict X (updated X y a b) r 0) ^ 2) ==
  Qsum (nrows X) (fun r => (nth r y 0 - predict X b r 0) ^ 2)
  - 2 * step_factor X a * Qsum (ncols X) (fun j => slope X y b j ^ 2)
  + step_factor X a ^ 2 * Qsum (nrows X) (fun r => slope_image X y b r ^ 2).
Proof.
  transitivity
    (Qsum (nrows X) (fun r =>
       (nth r y 0 - predict X b r 0) ^ 2 +
       ((- (2 * step_factor X a)) * (residual X y b r * slope_image X y b r) +
        step_factor X a ^ 2 * slope_image X y b r ^ 2))).
  { apply Qsum_ext. intros r _. rewrite predict_updated. unfold residual. ring. }
  rewrite !Qsum_plus, !Qsum_scale, residual_slope_image. ring.
Qed.

Lemma Qofnat_rows_pos : 0 < Qofnat (nrows X).
Proof.
  unfold Qofnat. change 0 with (inject_Z 0). rewrite <- Zlt_Qlt. lia.
Qed.

(** A step with [0 <= a <= n / L] does not raise the loss. *)
Lemma mse_not_raised (L : Q) :
  spectral_bound X L -> 0 <= a -> a * L <= Qofnat (nrows X) ->
  mse X y (updated X y a b) <= mse X y b.
Proof.
  intros SB Pa Pl. unfold mse. rewrite squared_error_updated.
  pose proof (SB (slope X y b)) as B. fold slope_image in B.
  assert (Gs : 0 <= Qsum (ncols X) (fun j => slope X y b j ^ 2)).
  { apply Qsum_nonneg. intros j _. apply Qsquare_nonneg. }
  pose proof Qofnat_rows_pos as Pn.
  set (N := Qofnat (nrows X)) in *.
  set (G2 := Qsum (ncols X) (fun j => slope X y b j ^ 2)) in *.
  set (I2 := Qsum (nrows X) (fun r => slope_image X y b r ^ 2)) in *.
  set (E2 := Qsum (nrows X) (fun r => (nth r y 0 - predict X b r 0) ^ 2)).
  unfold step_factor. fold N.
  change (I2 <= L * G2) in B. clearbody N G2 I2 E2.
  assert (Pu : 0 < / N) by (apply Qinv_lt_0_compat; exact Pn).
  assert (Eu : N * / N == 1) by (apply Qmult_inv_r; lra).
  unfold Qdiv. set (u := / N) in *. clearbody u.
  set (c := a * (2 * u)).
  assert (Pc : 0 <= c) by (unfold c; nra).
  assert (PcL : c * L <= 2).
  { assert (u * (a * L) <= u * N) by nra. unfold c. nra. }
  assert (K1 : 0 <= c ^ 2 * (L * G2 - I2))
    by (apply Qmult_le_0_compat; [apply Qsquare_nonneg|lra]).
  assert (K2 : 0 <= (c * G2) * (2 - c * L))
    by (apply Qmult_le_0_compat; [apply Qmult_le_0_compat; assumption|lra]).
  assert (K3 : c ^ 2 * I2 <= 2 * c * G2) by nra.
  nra.
Qed.


End OneUpdate.

Lemma spectral_bound_X_one : spectral_bound X_one 1.
Proof.
  intros v. cbn. unfold item. cbn.
  assert (0 <= v 1%nat ^ 2) by apply Qsquare_nonneg. nra.
Qed.

(** The norm of [X_one^T X_one] is 1: no smaller bound will do. *)
Lemma spectral_bound_X_one_least (L : Q) : spectral_bound X_one L -> 1 <= L.
Proof.
  intros SB. specialize (SB (fun j => match j with O => 1 | S _ => 0 end)).
  cbn in SB. unfold item in SB. cbn in SB. nra.
Qed.

(** With one row the learning rate [3/2] is below [2 / 1], twice the
    reciprocal of the norm of [X^T X], and the first update raises the mean
    squared error from [1/4] to [1]. *)
Lemma mse_raised_below_bound :
  spectral_bound X_one 1 /\
  (forall L, spectral_bound X_one L -> 1 <= L) /\
  (3 # 2) < 2 / 1 /\
  trial X_one y_one (3 # 2) tol_nb b2 0 =
    Ok (b2, NdArray 2 1 [[- (1)]; [1 # 2]], false) /\
  mse X_one y_one b2 == 1 # 4 /\
  mse X_one y_one (NdArray 2 1 [[- (1)]; [1 # 2]]) == 1 /\
  ~ mse X_one y_one (NdArray 2 1 [[- (1)]; [1 # 2]]) <= mse X_one y_one b2.
Proof.
  split; [exact spectral_bound_X_one|].
  split; [exact spectral_bound_X_one_least|].
  split; [reflexivity|]. split; [vm_compute; reflexivity|].
  split; [reflexivity|]. split; [reflexivity|].
  intros Le. vm_compute in Le. apply Le. reflexivity.
Qed.

(** ** A learning rate that is not positive *)

Lemma Qlt_bool_true (x z : Q) : x < z -> Qlt_bool x z = true.
Proof.
  intros L. unfold Qlt_bool. destruct (Qle_bool z x) eqn:E; [|reflexivity].
  apply Qle_bool_iff in E. lra.
Qed.

Lemma fold_left_zero (l : list Q) : forall acc,
  Forall (fun x => x == 0) l -> fold_left kadd l acc == acc.
Proof.
  induction l as [|x l IH]; intros acc F; [reflexivity|].
  inversion F as [|x' l' Hx Hl]; subst. cbn [fold_left].
  rewrite (IH _ Hl). q_ops. rewrite Hx. ring.
Qed.

Lemma np_sum_zero (n m : nat) (f : nat -> nat -> Q) :
  (forall r c, (r < n)%nat -> (c < m)%nat -> f r c == 0) ->
  np_sum (build n m f) == 0.
Proof.
  intros E. unfold np_sum, build. cbn [rows].
  rewrite fold_left_zero; [reflexivity|].
  apply Forall_concat. apply Forall_forall. intros row Hrow.
  apply in_map_iff in Hrow. destruct Hrow as (r & <- & Hr). apply in_seq in Hr.
  apply Forall_forall. intros x Hx.
  apply in_map_iff in Hx. destruct Hx as (c & <- & Hc). apply in_seq in Hc.
  apply E; lia.
Qed.



(** ** What the loop prints and binds *)

(** C6, as the code has it: the loop prints nothing except the notice of
    the last iteration, exactly when it runs out of iterations without
    meeting the tolerance; and the variables of the cell are names of the
    notebook's global namespace, where the run leaves its hyperparameters
    bound. *)
Theorem loop_prints_only_notice {K} `{Scalar K} (X : ndarray K) (y : list K)
    (a : K) (b0 : ndarray K) (eps : K) (M : nat) (st : state K) :
  (printed_by (descent_run X y a b0 eps M) st = [] \/
   printed_by (descent_run X y a b0 eps M) st = [max_iter_notice]) /\
  (printed_by (descent_run X y a b0 eps M) st = [max_iter_notice] <->
   (0 < M)%nat /\ snd (descent_run X y a b0 eps M st) = Val false) /\
  alpha (globals (fst (descent_run X y a b0 eps M st))) = Some a /\
  tol (globals (fst (descent_run X y a b0 eps M st))) = Some eps /\
  max_iter (globals (fst (descent_run X y a b0 eps M st))) = Some M.
Proof.
  destruct st as [g out cnt]. unfold printed_by. cbn [stdout].
  pose proof (descent_run_verdict X y a eps M b0 g out cnt) as V.
  destruct (descend X y a eps M 0 b0) as [t bt new|bM|t e].
  - rewrite V. cbn [fst snd stdout globals alpha tol max_iter].
    rewrite skipn_all. split; [left; reflexivity|].
    split; [|repeat split]. split; [discriminate|intros [_ E]; discriminate E].
  - rewrite V. cbn [fst snd stdout globals]. rewrite skipn_app_length.
    destruct M as [|m]; cbn [alpha tol max_iter].
    + split; [left; reflexivity|]. split; [|repeat split].
      split; [discriminate|intros [L _]; lia].
    + split; [right; reflexivity|]. split; [|repeat split].
      split; [intros _; split; [lia|reflexivity]|reflexivity].
  - destruct V as (g' & V & Va & Vt & Vm). rewrite V.
    cbn [fst snd stdout globals]. rewrite skipn_all.
    split; [left; reflexivity|]. split; [|repeat split; assumption].
    split; [discriminate|intros [_ E]; discriminate E].
Qed.

Lemma loop_prints_only_notice_witness :
  printed_by (descent_run X2 y2 alpha_nb b2 tol_nb 1) start = [max_iter_notice].
Proof.
  apply (loop_prints_only_notice X2 y2 alpha_nb b2 tol_nb 1 start).
  split; [lia|reflexivity].
Defined.

(** A run whose loop prints, and which rebinds global names. *)
Lemma loop_prints_and_binds :
  printed_by (descent_run X2 y2 alpha_nb b2 tol_nb 1) start =
    [[PStr "Maximum iterations reached before convergence."]] /\
  printed_by (descent_run X2 y2 alpha_nb b2 tol_nb 1) start <> [] /\
  globals (fst (descent_run X2 y2 alpha_nb b2 tol_nb 1 start)) =
    Namespace (Some alpha_nb) (Some (NdArray 2 1 [[9 # 20]; [1 # 2]]))
      (Some tol_nb) (Some 1%nat) (Some 0%nat)
      (Some (NdArray 2 1 [[9 # 20]; [1 # 2]])) None /\
  globals (fst (descent_run X2 y2 alpha_nb b2 tol_nb 1 start)) <>
    globals (@start Q _).
Proof.
  repeat split; try discriminate.
Qed.

(** ** A run that reaches the cap *)

(** In a run that never meets the tolerance, started in a namespace where
    [beta_hat] is unbound, the cell prints the notice and the index of the
    last iteration and then fails on the name [beta_hat]; the estimate stays
    in [beta_star]. *)
Lemma exhausted_run_raises {K} `{Scalar K} (X : ndarray K) (y : list K)
    (a : K) (b0 : ndarray K) (eps : K) (M : nat) g out cnt :
  (0 < M)%nat -> beta_hat g = None ->
  (forall u, (u < M)%nat -> misses X y a eps b0 u) ->
  exists bM,
    iterate X y a M b0 = Ok bM /\
    gradient_descent X y a b0 eps M (State g out cnt) =
    (State (Namespace (Some a) (Some bM) (Some eps) (Some M)
              (Some (M - 1)%nat) (Some bM) None)
           (out ++ [max_iter_notice; went_through (M - 1); beta_hat_label])
           (cnt + M)%nat,
     Exc (NameError "beta_hat")).
Proof.
  intros Pos Hn Ms.
  destruct (descend_all_miss X y a eps M b0 Ms) as (bM & D & It).
  exists bM. split; [exact It|].
  rewrite (gradient_descent_exhausted X y a eps M b0 bM g out cnt Pos D), Hn.
  reflexivity.
Qed.

(** C1 on the code: with the notebook's learning rate and tolerance and a cap
    of 3, no iteration meets the tolerance; the cell prints the notice and
    "Went through 2 iterations" and then raises [NameError] for [beta_hat];
    the last update is left in [beta_star] and [beta_star_new].  In a kernel
    where an earlier run has bound [beta_hat], the cell prints that earlier
    array instead. *)
Theorem exhausted_cell_returns_no_estimate :
  (forall u, (u < 3)%nat -> misses X2 y2 alpha_nb tol_nb b2 u) /\
  gradient_descent X2 y2 alpha_nb b2 tol_nb 3 start =
  (State (Namespace (Some alpha_nb) (Some (NdArray 2 1 [[729 # 2000]; [1 # 2]]))
            (Some tol_nb) (Some 3%nat) (Some 2%nat)
            (Some (NdArray 2 1 [[729 # 2000]; [1 # 2]])) None)
         [[PStr "Maximum iterations reached before convergence."];
          [PStr "Went through"; PInt 2; PStr "iterations"];
          [PStr "beta_hat ="]]
         3,
   Exc (NameError "beta_hat")) /\
  gradient_descent X2 y2 alpha_nb b2 tol_nb 3
    (State (set_beta_hat stale fresh) [] 0) =
  (State (Namespace (Some alpha_nb) (Some (NdArray 2 1 [[729 # 2000]; [1 # 2]]))
            (Some tol_nb) (Some 3%nat) (Some 2%nat)
            (Some (NdArray 2 1 [[729 # 2000]; [1 # 2]])) (Some stale))
         [[PStr "Maximum iterations reached before convergence."];
          [PStr "Went through"; PInt 2; PStr "iterations"];
          [PStr "beta_hat ="];
          [PArr stale]]
         3,
   Val false).
Proof.
  split; [|split; vm_compute; reflexivity].
  intros [|[|[|u]]] Hu; try lia; eexists; eexists; vm_compute; reflexivity.
Qed.

(** C4 on the code: with a cap of 1 and a first update that misses the
    tolerance, the cell prints the notice, then "Went through 0 iterations",
    and raises [NameError] for [beta_hat] instead of giving an estimate. *)
Theorem one_iteration_reported_as_zero :
  misses X2 y2 alpha_nb tol_nb b2 0 /\
  gradient_descent X2 y2 alpha_nb b2 tol_nb 1 start =
  (State (Namespace (Some alpha_nb) (Some (NdArray 2 1 [[9 # 20]; [1 # 2]]))
            (Some tol_nb) (Some 1%nat) (Some 0%nat)
            (Some (NdArray 2 1 [[9 # 20]; [1 # 2]])) None)
         [[PStr "Maximum iterations reached before convergence."];
          [PStr "Went through"; PInt 0; PStr "iterations"];
          [PStr "beta_hat ="]]
         1,
   Exc (NameError "beta_hat")).
Proof.
  split; [|vm_compute; reflexivity].
  eexists; eexists; vm_compute; reflexivity.
Qed.

(** ** Runs on the example inputs *)


Lemma convergence_before_cap_witness :
  snd (gradient_descent X2 y2 (1 # 2) b2 tol_nb 2 start) = Val true /\
  beta_hat (globals (fst (gradient_descent X2 y2 (1 # 2) b2 tol_nb 2 start))) =
    Some (NdArray 2 1 [[0]; [1 # 2]]) /\
  ~ In max_iter_notice (printed_by (gradient_descent X2 y2 (1 # 2) b2 tol_nb 2) start).
Proof.
  apply (proj1 (convergence_before_cap X2 y2 (1 # 2) b2 tol_nb 2 start)
           (NdArray 2 1 [[0]; [1 # 2]]) (NdArray 2 1 [[0]; [1 # 2]])).
  - lia.
  - vm_compute. reflexivity.
  - intros [|u] Hu; [|cbn in Hu; lia]. eexists; eexists. vm_compute. reflexivity.
Defined.

Lemma y_length_mismatch_witness :
  snd (gradient_descent X2 [7; 7; 7] alpha_nb b2 tol_nb 50 start) = Exc ValueError /\
  printed_by (gradient_descent X2 [7; 7; 7] alpha_nb b2 tol_nb 50) start = [].
Proof.
  apply (y_length_mismatch X2 [7; 7; 7] alpha_nb b2 tol_nb 50 start).
  - discriminate.
  - reflexivity.
  - lia.
  - discriminate.
  - discriminate.
Defined.

(** A [y] with one entry against an [X] with two rows: nothing is raised,
    the entry is used for both rows and the run converges exactly as with
    [y = [7; 7]]. *)
Lemma short_y_is_broadcast :
  length [7] <> nrows X2 /\
  snd (gradient_descent X2 [7] alpha_nb b2 (1 # 10) 50 start) = Val true /\
  gradient_descent X2 [7] alpha_nb b2 (1 # 10) 50 start =
  gradient_descent X2 [7; 7] alpha_nb b2 (1 # 10) 50 start.
Proof.
  split; [discriminate|]. split; vm_compute; reflexivity.
Qed.

(** * Every iteration of a run

    The iterations of the cell's own loop: the state in which each one
    starts and what its first statement leaves in [beta_star_new]. *)

Section IterationFacts.
Local Open Scope nat_scope.
Context {K : Type} `{Scalar K}.
Variable X : ndarray K.
Variable y : list K.
Variable a : K.
Variable eps : K.
Variable M : nat.

(** A loop over [l1 ++ l2] is the loop over [l1] and, unless that was left
    by [break] or an exception, the loop over [l2] from where it ended. *)
Lemma for_i_in_app (body : state K -> state K * ctl unit) (l1 l2 : list nat) :
  forall st,
  for_i_in (l1 ++ l2) body st =
  match for_i_in l1 body st with
  | (st', Val false) => for_i_in l2 body st'
  | other => other
  end.
Proof.
  induction l1 as [|k l1 IH]; intros st; [reflexivity|].
  cbn [app for_i_in].
  destruct ((assign (set_i k) ;; tick ;; body)%stmt st) as [st' [u| |e]].
  - apply IH.
  - reflexivity.
  - reflexivity.
Qed.

(** Iterations that all miss the tolerance, before the last one of the run:
    nothing is printed and the estimate is updated each time. *)
Lemma loop_prefix (t : nat) : forall k b g out cnt,
  ready a eps M g b -> k + t < M ->
  (forall u, u < t -> misses X y a eps b u) ->
  exists g' bt,
    for_i_in (seq k t) (loop_body X y) (State g out cnt) =
      (State g' out (cnt + t), Val false) /\
    ready a eps M g' bt /\ iterate X y a t b = Ok bt /\
    beta_hat g' = beta_hat g.
Proof.
  induction t as [|t IH]; intros k b g out cnt R Lt Ms.
  - exists g, b. cbn [seq for_i_in iterate]. rewrite Nat.add_0_r.
    repeat split; apply R.
  - cbn [seq for_i_in]. rewrite (body_step X y a eps M k g out cnt b R).
    destruct (Ms 0 ltac:(lia)) as (b' & new & T).
    unfold trial in T. cbn [iterate rbind] in T.
    destruct (descent_step X y a b) as [nw|] eqn:D; [|discriminate].
    cbn [rbind] in T.
    destruct (half_sq_dist nw b) as [s|] eqn:Hs; [|discriminate].
    cbn [rbind] in T.
    assert (Lf : kltb s eps = false) by congruence. rewrite Lf.
    destruct (Nat.eqb_spec (k + 1) M) as [E|_]; [lia|]. rewrite app_nil_r.
    set (g1 := Namespace (alpha g) (Some nw) (tol g) (max_iter g)
                 (Some k) (Some nw) (beta_hat g)).
    assert (R1 : ready a eps M g1 nw).
    { destruct R as (Ra & Rt & Rm & _). repeat split; assumption. }
    assert (Ms1 : forall u, u < t -> misses X y a eps nw u).
    { intros u Hu. destruct (Ms (S u) ltac:(lia)) as (bu & nu & Tu).
      exists bu, nu. rewrite trial_S, D in Tu. exact Tu. }
    destruct (IH (S k) nw g1 out (S cnt) R1 ltac:(lia) Ms1)
      as (g' & bt & F & R' & It & Bh).
    exists g', bt. rewrite F. split; [do 2 f_equal; lia|].
    split; [exact R'|]. split; [|exact Bh].
    cbn [iterate]. rewrite D. exact It.
Qed.

(** The run is the run up to iteration [t] followed by the iterations from
    [t] on. *)
Lemma run_until_split (b0 : ndarray K) (t : nat) (st st_t : state K) :
  t <= M ->
  run_until X y a b0 eps M t st = (st_t, Val false) ->
  descent_run X y a b0 eps M st =
  for_i_in (seq t (M - t)) (loop_body X y) st_t.
Proof.
  intros Le E. destruct st as [g out cnt].
  set (g0 := Namespace (Some a) (Some b0) (Some eps) (Some M)
               (i g) (beta_star_new g) (beta_hat g)).
  assert (Es : seq 0 M = seq 0 t ++ seq t (M - t)).
  { replace (seq 0 M) with (seq 0 (t + (M - t))) by (f_equal; lia).
    apply seq_app. }
  change (descent_run X y a b0 eps M (State g out cnt))
    with (for_i_in (seq 0 M) (loop_body X y) (State g0 out cnt)).
  change (run_until X y a b0 eps M t (State g out cnt))
    with (for_i_in (seq 0 t) (loop_body X y) (State g0 out cnt)) in E.
  rewrite Es, for_i_in_app, E. reflexivity.
Qed.

(** On inputs whose shapes fit, every iteration that is reached proposes the
    update of the estimate it starts from. *)
Lemma iteration_proposes (b0 : ndarray K) (t : nat) (st : state K) :
  nrows X <> 0 -> ncols X = nrows b0 ->
  length y = nrows X \/ length y = 1 ->
  t < M -> (forall u, u < t -> misses X y a eps b0 u) ->
  exists b,
    iterate X y a t b0 = Ok b /\ nrows b = nrows b0 /\ ncols b = ncols b0 /\
    proposes X y a b0 eps M st t b
      (build (nrows b) (ncols b) (update_entry X y a b)).
Proof.
  intros NZ Eb Ey Lt Ms. destruct st as [g out cnt].
  set (g0 := Namespace (Some a) (Some b0) (Some eps) (Some M)
               (i g) (beta_star_new g) (beta_hat g)).
  assert (R0 : ready a eps M g0 b0) by (repeat split).
  destruct (loop_prefix t 0 b0 g0 out cnt R0 ltac:(lia) Ms)
    as (g' & b & F & R' & It & _).
  destruct (iterate_defined X y a NZ Ey t b0 Eb) as (b' & It' & Rb & Cb).
  assert (b' = b) by congruence. subst b'.
  assert (Eb' : ncols X = nrows b) by congruence.
  exists b. split; [exact It|]. split; [exact Rb|]. split; [exact Cb|].
  split; [exact Lt|]. exists (State g' out (cnt + t)).
  assert (Eu : run_until X y a b0 eps M t (State g out cnt) =
               (State g' out (cnt + t), Val false)) by exact F.
  split; [exact Eu|].
  split; [apply run_until_split; [lia|exact Eu]|].
  cbn [globals]. split; [apply R'|]. split; [apply R'|].
  unfold iteration.
  rewrite (body_step X y a eps M t g' out (cnt + t) b R').
  rewrite (descent_step_defined X y a b NZ Eb' Ey).
  destruct (half_sq_dist _ b) as [s|e]; [destruct (kltb s eps)|]; reflexivity.
Qed.

End IterationFacts.

(** C2: in every iteration [t] that a run reaches, the first statement of
    the loop body binds [beta_star_new] to the current estimate minus
    [alpha * (2/n)] times [X^T (X beta_star - y)], with [n] the number of
    rows of [X]; the operations are those of the cell's arithmetic, in the
    order in which the cell performs them. *)
Theorem update_rule {K} `{Scalar K} (X : ndarray K) (y : list K) (a : K)
    (b0 : ndarray K) (eps : K) (M t : nat) (st : state K) :
  shapes_fit X y b0 -> (t < M)%nat ->
  (forall u, (u < t)%nat -> misses X y a eps b0 u) ->
  exists b new,
    proposes X y a b0 eps M st t b new /\
    iterate X y a t b0 = Ok b /\
    nrows new = nrows b /\ ncols new = ncols b /\
    forall r c, (r < nrows b)%nat -> (c < ncols b)%nat ->
      item new r c =
      ksub (item b r c)
        (kmul (kmul a (kdiv (kofnat 2) (kofnat (nrows X))))
           (sigma (nrows X) (fun k =>
              kmul (item X k r)
                (ksub (sigma (ncols X) (fun j => kmul (item X k j) (item b j c)))
                      (nth k y kzero))))).
Proof.
  intros (NZ & Eb & Ey) Lt Ms.
  destruct (iteration_proposes X y a eps M b0 t st NZ Eb (or_introl Ey) Lt Ms)
    as (b & It & Rb & Cb & P).
  exists b, (build (nrows b) (ncols b) (update_entry X y a b)).
  split; [exact P|]. split; [exact It|].
  split; [reflexivity|]. split; [reflexivity|].
  intros r c Hr Hc. rewrite (item_build _ _ _ r c Hr Hc).
  unfold update_entry. do 2 f_equal. apply sigma_ext. intros k Hk.
  rewrite Ey, (stretch_id (nrows X) k Hk). reflexivity.
Qed.

Lemma update_rule_witness :
  exists b new,
    proposes X2_f64 y2_f64 alpha_f64 b2_f64 tol_f64 50 start 2 b new /\
    iterate X2_f64 y2_f64 alpha_f64 2 b2_f64 = Ok b /\
    nrows new = nrows b /\ ncols new = ncols b /\
    forall r c, (r < nrows b)%nat -> (c < ncols b)%nat ->
      item new r c =
      ksub (item b r c)
        (kmul (kmul alpha_f64 (kdiv (kofnat 2) (kofnat (nrows X2_f64))))
           (sigma (nrows X2_f64) (fun k =>
              kmul (item X2_f64 k r)
                (ksub (sigma (ncols X2_f64)
                         (fun j => kmul (item X2_f64 k j) (item b j c)))
                      (nth k y2_f64 kzero))))).
Proof.
  apply (update_rule X2_f64 y2_f64 alpha_f64 b2_f64 tol_f64 50 2 start).
  - repeat split. discriminate.
  - lia.
  - intros [|[|u]] Hu; [| |lia]; eexists; eexists; vm_compute; reflexivity.
Defined.

(** In exact arithmetic the update of C2 is the current estimate minus the
    learning rate times the notebook's gradient of the mean squared error. *)
Lemma update_rule_exact (X : ndarray Q) (y : list Q) (a : Q) (b0 : ndarray Q)
    (eps : Q) (M t : nat) (st : state Q) :
  shapes_fit X y b0 -> (t < M)%nat ->
  (forall u, (u < t)%nat -> misses X y a eps b0 u) ->
  exists b new,
    proposes X y a b0 eps M st t b new /\
    forall r c, (r < nrows b)%nat -> (c < ncols b)%nat ->
      item new r c == item b r c - a * mse_gradient X y b r c.
Proof.
  intros (NZ & Eb & Ey) Lt Ms.
  destruct (iteration_proposes X y a eps M b0 t st NZ Eb (or_introl Ey) Lt Ms)
    as (b & It & Rb & Cb & P).
  exists b, (build (nrows b) (ncols b) (update_entry X y a b)).
  split; [exact P|].
  intros r c Hr Hc. rewrite (item_build _ _ _ r c Hr Hc).
  apply update_entry_Q. exact Ey.
Qed.

(** A run in which no iteration of [len] meets the tolerance, decided by
    running it. *)
Lemma exhausted_misses {K} `{Scalar K} (X : ndarray K) (y : list K) (a eps : K)
    (b0 bM : ndarray K) (len : nat) :
  descend X y a eps len 0 b0 = Exhausted bM ->
  iterate X y a len b0 = Ok bM /\
  forall u, (u < len)%nat -> misses X y a eps b0 u.
Proof.
  intros D. pose proof (descend_sound X y a eps len 0 b0) as Sd.
  rewrite D in Sd. exact Sd.
Qed.

Section Rounding.
Import PrimFloat.

(** The run of the example inputs in doubles and in exact arithmetic: the
    cell's third update is [0.36450000000000005], where the exact value is
    [729/2000]. *)
Lemma float64_three_updates :
  iterate X2_f64 y2_f64 alpha_f64 3 b2_f64 =
    Ok (NdArray 2 1 [[0.36450000000000005]; [0.5]]%float) /\
  iterate X2 y2 alpha_nb 3 b2 = Ok (NdArray 2 1 [[729 # 2000]; [1 # 2]]).
Proof. split; vm_compute; reflexivity. Qed.

Lemma spectral_bound_X_stall : spectral_bound (exactly X_stall) 9.
Proof.
  assert (E : exactly X_stall = NdArray 1 1 [[3]]) by (vm_compute; reflexivity).
  rewrite E. intros v. cbn. unfold item. cbn. nra.
Qed.

(** Iteration 158 of the run on [X_stall] in doubles. *)
Lemma stall_iteration :
  proposes X_stall y_stall alpha_stall b_stall tol_f64 200 start 158
    (NdArray 1 1 [[999999999999999.75]]%float)
    (NdArray 1 1 [[1000000000000000.375]]%float).
Proof.
  assert (D : descend X_stall y_stall alpha_stall tol_f64 158 0 b_stall =
              Exhausted (NdArray 1 1 [[999999999999999.75]]%float))
    by (vm_compute; reflexivity).
  destruct (exhausted_misses _ _ _ _ _ _ _ D) as [It Ms].
  destruct (iteration_proposes X_stall y_stall alpha_stall tol_f64 200 b_stall
              158 start ltac:(discriminate) eq_refl (or_introl eq_refl)
              ltac:(lia) Ms) as (b & It' & _ & _ & P).
  assert (b = NdArray 1 1 [[999999999999999.75]]%float) by congruence.
  subst b.
  replace (NdArray 1 1 [[1000000000000000.375]]%float)
    with (build 1 1 (update_entry X_stall y_stall alpha_stall
                       (NdArray 1 1 [[999999999999999.75]]%float)))
    by (vm_compute; reflexivity).
  exact P.
Qed.

(** C7, as the code has it.  In exact arithmetic, with [n] rows and a
    learning rate [0 <= a <= n / L], where [L] bounds the norm of [X^T X],
    every iteration of the loop proposes an update whose mean squared error
    is not larger than that of the estimate it starts from; this covers
    every [0 <= a < 2 / L] once [X] has two rows or more.  In doubles this
    holds up to rounding only: on [X_stall], with [a * L] about [0.9], the
    update of iteration 158 goes from [999999999999999.75] to
    [1000000000000000.375] and the mean squared error of these two
    estimates, computed exactly, rises from [9/16] to [81/64]. *)
Theorem mse_descent :
  (forall (X : ndarray Q) (y : list Q) (a : Q) (b0 : ndarray Q) (eps L : Q)
          (M t : nat) (st : state Q),
     shapes_fit X y b0 -> (0 < ncols b0)%nat ->
     spectral_bound X L -> 0 <= a -> a * L <= Qofnat (nrows X) ->
     (t < M)%nat -> (forall u, (u < t)%nat -> misses X y a eps b0 u) ->
     exists b new,
       proposes X y a b0 eps M st t b new /\
       mse X y new <= mse X y b) /\
  (spectral_bound (exactly X_stall) 9 /\
   0 <= Q_of_float alpha_stall /\
   Q_of_float alpha_stall * 9 <= Qofnat (nrows X_stall) /\
   proposes X_stall y_stall alpha_stall b_stall tol_f64 200 start 158
     (NdArray 1 1 [[999999999999999.75]]%float)
     (NdArray 1 1 [[1000000000000000.375]]%float) /\
   mse (exactly X_stall) (map Q_of_float y_stall)
       (exactly (NdArray 1 1 [[999999999999999.75]]%float)) == 9 # 16 /\
   mse (exactly X_stall) (map Q_of_float y_stall)
       (exactly (NdArray 1 1 [[1000000000000000.375]]%float)) == 81 # 64).
Proof.
  split.
  - intros X y a b0 eps L M t st (NZ & Eb & Ey) Cb SB Pa Pl Lt Ms.
    destruct (iteration_proposes X y a eps M b0 t st NZ Eb (or_introl Ey) Lt Ms)
      as (b & It & Rb & Cb' & P).
    exists b, (build (nrows b) (ncols b) (update_entry X y a b)).
    split; [exact P|].
    apply (mse_not_raised X y a b) with (L := L); try assumption; congruence.
  - split; [exact spectral_bound_X_stall|].
    split; [vm_compute; discriminate|].
    split; [vm_compute; discriminate|].
    split; [exact stall_iteration|].
    split; vm_compute; reflexivity.
Qed.

End Rounding.

Lemma mse_descent_witness :
  exists b new,
    proposes X_one y_one (1 # 2) b2 tol_nb 1 start 0 b new /\
    mse X_one y_one new <= mse X_one y_one b.
Proof.
  apply (proj1 mse_descent X_one y_one (1 # 2) b2 tol_nb 1 1%nat 0%nat start).
  - repeat split. discriminate.
  - cbn. lia.
  - exact spectral_bound_X_one.
  - discriminate.
  - discriminate.
  - lia.
  - intros u Hu. lia.
Defined.

(** ** A learning rate that is not checked *)


Section Overflow.
Import PrimFloat.


End Overflow.


(** * Further properties of the notebook's cells *)

(** ** The descent cell: what it delivers and how it fails *)

Lemma iterate_shape {K} `{Scalar K} (X : ndarray K) (y : list K) (a : K)
    (t : nat) : forall b bt,
  iterate X y a t b = Ok bt -> nrows bt = nrows b /\ ncols bt = ncols b.
Proof.
  induction t as [|t IH]; intros b bt It.
  - injection It as <-. split; reflexivity.
  - cbn [iterate] in It.
    destruct (descent_step X y a b) as [b'|] eqn:D; [|discriminate].
    cbn [rbind] in It. destruct (IH b' bt It) as [Rt Ct].
    destruct (descent_step_shape X y a b b' D) as [Rb Cb]. split; congruence.
Qed.

(** A run that is left by [break] has met the tolerance in some iteration. *)
Lemma converged_verdict {K} `{Scalar K} (X : ndarray K) (y : list K)
    (a : K) (b0 : ndarray K) (eps : K) (M : nat) g out cnt :
  snd (gradient_descent X y a b0 eps M (State g out cnt)) = Val true ->
  exists t bt new, descend X y a eps M 0 b0 = Converged t bt new.
Proof.
  intros E. destruct (descend X y a eps M 0 b0) as [t bt new|bM|t e] eqn:D.
  - eauto.
  - exfalso. destruct (Nat.eq_dec M 0) as [Z|NZ].
    + destruct (gradient_descent_no_iteration X y a eps M b0 g out cnt Z)
        as (g' & more & E' & _).
      rewrite E' in E. cbn in E. destruct (i g); [destruct (beta_hat g)|];
        discriminate.
    + rewrite (gradient_descent_exhausted X y a eps M b0 bM g out cnt
                 ltac:(lia) D) in E.
      destruct (beta_hat g); discriminate.
  - exfalso.
    destruct (gradient_descent_raised X y a eps M b0 t e g out cnt D) as [g' E'].
    rewrite E' in E. discriminate.
Qed.

(** X1: the estimate a converged run leaves in [beta_hat] has the shape of
    the initial guess, whatever the shapes of [X] and [y]. *)
Theorem delivered_estimate_shape {K} `{Scalar K} (X : ndarray K) (y : list K)
    (a : K) (b0 : ndarray K) (eps : K) (M : nat) (st : state K) :
  snd (gradient_descent X y a b0 eps M st) = Val true ->
  exists h,
    beta_hat (globals (fst (gradient_descent X y a b0 eps M st))) = Some h /\
    nrows h = nrows b0 /\ ncols h = ncols b0.
Proof.
  destruct st as [g out cnt]. intros E.
  destruct (converged_verdict X y a b0 eps M g out cnt E) as (t & bt & new & D).
  rewrite (gradient_descent_converged X y a eps M b0 bt new t g out cnt D).
  exists new. split; [reflexivity|].
  pose proof (descend_sound X y a eps M 0 b0) as Sd. rewrite D in Sd.
  destruct Sd as [T _]. unfold trial in T.
  destruct (iterate X y a (t - 0) b0) as [b|] eqn:It; [|discriminate].
  cbn [rbind] in T.
  destruct (descent_step X y a b) as [n'|] eqn:Ds; [|discriminate].
  cbn [rbind] in T. destruct (half_sq_dist n' b); [|discriminate].
  injection T as -> -> _.
  destruct (iterate_shape X y a (t - 0) b0 bt It) as [Rb Cb].
  destruct (descent_step_shape X y a bt new Ds) as [Rn Cn]. split; congruence.
Qed.

Lemma delivered_estimate_shape_witness :
  exists h,
    beta_hat (globals (fst (gradient_descent X2 y2 (1 # 2) b2 tol_nb 3 start))) =
      Some h /\
    nrows h = nrows b2 /\ ncols h = ncols b2.
Proof.
  apply (delivered_estimate_shape X2 y2 (1 # 2) b2 tol_nb 3 start).
  vm_compute. reflexivity.
Defined.

(** An update that cannot be computed from the initial guess ends the cell
    in its first iteration, before anything is printed. *)
Lemma first_step_fails {K} `{Scalar K} (X : ndarray K) (y : list K)
    (a : K) (b0 : ndarray K) (eps : K) (M : nat) (st : state K) (e : exn) :
  (0 < M)%nat -> descent_step X y a b0 = Err e ->
  snd (gradient_descent X y a b0 eps M st) = Exc e /\
  printed_by (gradient_descent X y a b0 eps M) st = [] /\
  entered_by (gradient_descent X y a b0 eps M) st = 1%nat.
Proof.
  intros Pos D. destruct st as [g out cnt].
  assert (V : descend X y a eps M 0 b0 = Raised 0 e).
  { destruct M as [|m]; [lia|]. cbn [descend]. rewrite D. reflexivity. }
  destruct (gradient_descent_raised X y a eps M b0 0 e g out cnt V) as [g' E].
  unfold printed_by, entered_by. rewrite E. cbn [fst snd stdout entered].
  split; [reflexivity|]. split; [apply skipn_all|lia].
Qed.

(** X2: a design matrix without rows makes the first iteration raise
    [ZeroDivisionError], from [2/len(X)]; nothing is printed. *)
Theorem empty_design_matrix {K} `{Scalar K} (X : ndarray K) (y : list K)
    (a : K) (b0 : ndarray K) (eps : K) (M : nat) (st : state K) :
  nrows X = 0%nat -> (0 < M)%nat ->
  snd (gradient_descent X y a b0 eps M st) = Exc ZeroDivisionError /\
  printed_by (gradient_descent X y a b0 eps M) st = [] /\
  entered_by (gradient_descent X y a b0 eps M) st = 1%nat.
Proof.
  intros Z Pos. apply first_step_fails; [exact Pos|].
  unfold descent_step, int_truediv, len. rewrite Z. reflexivity.
Qed.

Lemma empty_design_matrix_witness :
  snd (gradient_descent (NdArray 0 2 []) [] alpha_nb b2 tol_nb 5 start) =
    Exc ZeroDivisionError /\
  printed_by (gradient_descent (NdArray 0 2 []) [] alpha_nb b2 tol_nb 5) start = [] /\
  entered_by (gradient_descent (NdArray 0 2 []) [] alpha_nb b2 tol_nb 5) start = 1%nat.
Proof.
  apply (empty_design_matrix (NdArray 0 2 []) [] alpha_nb b2 tol_nb 5 start).
  - reflexivity.
  - lia.
Defined.

(** X3: an initial guess whose number of rows is not the number of columns
    of [X] makes the first iteration raise [ValueError], from
    [X.dot(beta_star)]; nothing is printed. *)
Theorem initial_guess_mismatch {K} `{Scalar K} (X : ndarray K) (y : list K)
    (a : K) (b0 : ndarray K) (eps : K) (M : nat) (st : state K) :
  nrows X <> 0%nat -> ncols X <> nrows b0 -> (0 < M)%nat ->
  snd (gradient_descent X y a b0 eps M st) = Exc ValueError /\
  printed_by (gradient_descent X y a b0 eps M) st = [] /\
  entered_by (gradient_descent X y a b0 eps M) st = 1%nat.
Proof.
  intros NZ Ne Pos. apply first_step_fails; [exact Pos|].
  unfold descent_step, int_truediv, len, np_dot.
  destruct (Nat.eqb_spec (nrows X) 0) as [Z|_]; [contradiction|]. cbn [rbind].
  destruct (Nat.eqb_spec (ncols X) (nrows b0)) as [E|_]; [contradiction|].
  reflexivity.
Qed.

Lemma initial_guess_mismatch_witness :
  snd (gradient_descent X2 y2 alpha_nb (NdArray 3 1 [[0]; [0]; [0]]) tol_nb 5 start) =
    Exc ValueError /\
  printed_by (gradient_descent X2 y2 alpha_nb (NdArray 3 1 [[0]; [0]; [0]]) tol_nb 5)
    start = [] /\
  entered_by (gradient_descent X2 y2 alpha_nb (NdArray 3 1 [[0]; [0]; [0]]) tol_nb 5)
    start = 1%nat.
Proof.
  apply (initial_guess_mismatch X2 y2 alpha_nb (NdArray 3 1 [[0]; [0]; [0]])
           tol_nb 5 start).
  - discriminate.
  - discriminate.
  - lia.
Defined.

(** X4: with a cap of zero the body never runs, and the report after the
    loop reads [i] and [beta_hat] as earlier runs left them: [NameError] for
    [i] in a fresh kernel, otherwise the count and the estimate of an earlier
    run, printed as if they were those of this one. *)
Theorem zero_cap {K} `{Scalar K} (X : ndarray K) (y : list K)
    (a : K) (b0 : ndarray K) (eps : K) (g : namespace K) out cnt :
  gradient_descent X y a b0 eps 0 (State g out cnt) =
  match i g with
  | None =>
      (State (Namespace (Some a) (Some b0) (Some eps) (Some 0%nat) None
                (beta_star_new g) (beta_hat g)) out cnt,
       Exc (NameError "i"))
  | Some k =>
      match beta_hat g with
      | None =>
          (State (Namespace (Some a) (Some b0) (Some eps) (Some 0%nat) (Some k)
                    (beta_star_new g) None)
                 (out ++ [went_through k; beta_hat_label]) cnt,
           Exc (NameError "beta_hat"))
      | Some h =>
          (State (Namespace (Some a) (Some b0) (Some eps) (Some 0%nat) (Some k)
                    (beta_star_new g) (Some h))
                 (out ++ [went_through k; beta_hat_label; [PArr h]]) cnt,
           Val false)
      end
  end.
Proof.
  pose proof (descent_run_verdict X y a eps 0 b0 g out cnt) as V.
  cbn [descend] in V. unfold gradient_descent, bind at 1. rewrite V.
  rewrite app_nil_r, Nat.add_0_r. unfold bind. rewrite report_eq.
  cbn [i beta_hat]. destruct (i g); [destruct (beta_hat g)|]; reflexivity.
Qed.

(** X5: a run that converges does not depend on what earlier runs left in
    the namespace: run again from any namespace, the cell ends in the same
    state. *)
Theorem converged_run_ignores_namespace {K} `{Scalar K} (X : ndarray K)
    (y : list K) (a : K) (b0 : ndarray K) (eps : K) (M : nat)
    (g g' : namespace K) out cnt :
  snd (gradient_descent X y a b0 eps M (State g out cnt)) = Val true ->
  gradient_descent X y a b0 eps M (State g' out cnt) =
  gradient_descent X y a b0 eps M (State g out cnt).
Proof.
  intros E.
  destruct (converged_verdict X y a b0 eps M g out cnt E) as (t & bt & new & D).
  rewrite (gradient_descent_converged X y a eps M b0 bt new t g out cnt D).
  apply gradient_descent_converged. exact D.
Qed.

Lemma converged_run_ignores_namespace_witness :
  gradient_descent X2 y2 (1 # 2) b2 tol_nb 3
    (State (globals (fst (gradient_descent X2 y2 (1 # 2) b2 tol_nb 3 start))) [] 0) =
  gradient_descent X2 y2 (1 # 2) b2 tol_nb 3 (State fresh [] 0).
Proof.
  apply (converged_run_ignores_namespace X2 y2 (1 # 2) b2 tol_nb 3).
  vm_compute. reflexivity.
Defined.

(** X6: the number the cell prints after "Went through" is one less than the
    number of times the body of the loop was entered, in converged runs and
    in runs that reach the cap alike. *)
Theorem printed_count_one_short {K} `{Scalar K} (X : ndarray K) (y : list K)
    (a : K) (b0 : ndarray K) (eps : K) (M : nat) (st : state K) (k : nat) :
  (0 < M)%nat ->
  In (went_through k) (printed_by (gradient_descent X y a b0 eps M) st) ->
  entered_by (gradient_descent X y a b0 eps M) st = S k.
Proof.
  destruct st as [g out cnt]. unfold printed_by, entered_by. cbn [stdout entered].
  intros Pos.
  pose proof (descend_range X y a eps M 0 b0) as Rg.
  destruct (descend X y a eps M 0 b0) as [t bt new|bM|t e] eqn:D.
  - rewrite (gradient_descent_converged X y a eps M b0 bt new t g out cnt D).
    cbn [fst stdout entered]. rewrite skipn_app_length.
    unfold went_through, beta_hat_label. cbn [In].
    intros [E|[E|[E|[]]]]; try discriminate E. injection E as ->. lia.
  - rewrite (gradient_descent_exhausted X y a eps M b0 bM g out cnt Pos D).
    destruct (beta_hat g); cbn [fst stdout entered]; rewrite skipn_app_length;
      unfold went_through, beta_hat_label, max_iter_notice; cbn [In];
      intros I; repeat (destruct I as [E|I]; [try discriminate E|]);
      try contradiction; injection E as <-; lia.
  - destruct (gradient_descent_raised X y a eps M b0 t e g out cnt D) as [g' E].
    rewrite E. cbn [fst stdout]. rewrite skipn_all. intros [].
Qed.

Lemma printed_count_one_short_witness :
  entered_by (gradient_descent X2 y2 alpha_nb b2 tol_nb 3) start = 3%nat.
Proof.
  apply (printed_count_one_short X2 y2 alpha_nb b2 tol_nb 3 start 2).
  - lia.
  - vm_compute. right. left. reflexivity.
Defined.

(** X7: when no iteration meets the tolerance, the loop stops after
    [max_iter] iterations with the last update in both [beta_star] and
    [beta_star_new], the notice printed, and [beta_hat] as it was before the
    run. *)
Theorem cap_reached_state {K} `{Scalar K} (X : ndarray K) (y : list K)
    (a : K) (b0 : ndarray K) (eps : K) (M : nat) (g : namespace K) out cnt :
  (0 < M)%nat ->
  (forall u, (u < M)%nat -> misses X y a eps b0 u) ->
  exists bM,
    iterate X y a M b0 = Ok bM /\
    descent_run X y a b0 eps M (State g out cnt) =
    (State (Namespace (Some a) (Some bM) (Some eps) (Some M)
              (Some (M - 1)%nat) (Some bM) (beta_hat g))
           (out ++ [max_iter_notice]) (cnt + M)%nat,
     Val false).
Proof.
  intros Pos Ms.
  destruct (descend_all_miss X y a eps M b0 Ms) as (bM & D & It).
  exists bM. split; [exact It|].
  pose proof (descent_run_verdict X y a eps M b0 g out cnt) as V.
  rewrite D in V. rewrite V. destruct M; [lia|reflexivity].
Qed.

Lemma cap_reached_state_witness :
  exists bM,
    iterate X2 y2 alpha_nb 3 b2 = Ok bM /\
    descent_run X2 y2 alpha_nb b2 tol_nb 3 (State (set_beta_hat stale fresh) [] 0) =
    (State (Namespace (Some alpha_nb) (Some bM) (Some tol_nb) (Some 3%nat)
              (Some (3 - 1)%nat) (Some bM) (Some stale))
           ([] ++ [max_iter_notice]) (0 + 3)%nat,
     Val false).
Proof.
  apply (cap_reached_state X2 y2 alpha_nb b2 tol_nb 3
           (set_beta_hat stale fresh) [] 0%nat).
  - lia.
  - intros [|[|[|u]]] Hu; try lia; eexists; eexists; vm_compute; reflexivity.
Defined.

(** ** The descent cell: tolerance, stationary points and the loss *)

Lemma fold_left_nonneg (l : list Q) : forall acc,
  0 <= acc -> Forall (fun x => 0 <= x) l -> 0 <= fold_left kadd l acc.
Proof.
  induction l as [|x l IH]; intros acc Pa F; [exact Pa|].
  inversion F as [|x' l' Hx Hl]; subst. cbn [fold_left]. apply IH; [|exact Hl].
  q_ops. lra.
Qed.

(** The statistic of the tolerance test is never negative. *)
Lemma half_sq_dist_nonneg (bn b : ndarray Q) (s : Q) :
  half_sq_dist bn b = Ok s -> 0 <= s.
Proof.
  unfold half_sq_dist. destruct (np_sub bn b) as [d|]; [|discriminate].
  cbn [rbind]. intros E.
  assert (Es : s = kdiv (np_sum (np_power d 2)) (kofnat 2)) by congruence.
  rewrite Es. clear E Es.
  cbn [kdiv Q_Scalar]. rewrite Qred_correct.
  assert (P : 0 <= np_sum (np_power d 2)).
  { unfold np_sum, np_power, build. cbn [rows].
    apply fold_left_nonneg; [discriminate|].
    apply Forall_concat. apply Forall_forall. intros row Hrow.
    apply in_map_iff in Hrow. destruct Hrow as (r & <- & _).
    apply Forall_forall. intros x Hx.
    apply in_map_iff in Hx. destruct Hx as (c & <- & _).
    q_ops. change (Qofnat 1) with 1.
    setoid_replace (item d r c * (item d r c * 1)) with (item d r c ^ 2) by ring.
    apply Qsquare_nonneg. }
  change (Qofnat 2) with 2. unfold Qdiv.
  apply Qmult_le_0_compat; [exact P|discriminate].
Qed.

(** X8: with a tolerance that is not positive the test never passes: the
    cell never ends as converged, and on inputs whose shapes fit the loop runs
    all [max_iter] iterations. *)
Theorem nonpositive_tolerance (X : ndarray Q) (y : list Q) (a : Q)
    (b0 : ndarray Q) (eps : Q) (M : nat) (st : state Q) :
  eps <= 0 ->
  snd (gradient_descent X y a b0 eps M st) <> Val true /\
  (shapes_fit X y b0 ->
   snd (descent_run X y a b0 eps M st) = Val false /\
   entered_by (descent_run X y a b0 eps M) st = M).
Proof.
  intros Ne. destruct st as [g out cnt].
  assert (NoMeet : forall t b new, trial X y a eps b0 t <> Ok (b, new, true)).
  { intros t b new T. unfold trial in T.
    destruct (iterate X y a t b0) as [bt|]; [|discriminate]. cbn [rbind] in T.
    destruct (descent_step X y a bt) as [n'|]; [|discriminate].
    cbn [rbind] in T.
    destruct (half_sq_dist n' bt) as [s|] eqn:Hs; [|discriminate].
    cbn [rbind] in T. injection T as _ _ L.
    apply half_sq_dist_nonneg in Hs.
    cbn [kltb Q_Scalar] in L. unfold Qlt_bool in L.
    destruct (Qle_bool eps s) eqn:Q; [discriminate|].
    assert (Qle_bool eps s = true) by (apply Qle_bool_iff; lra). congruence. }
  split.
  - intros E.
    destruct (converged_verdict X y a b0 eps M g out cnt E) as (t & bt & new & D).
    pose proof (descend_sound X y a eps M 0 b0) as Sd. rewrite D in Sd.
    destruct Sd as [T _]. exact (NoMeet _ _ _ T).
  - intros (NZ & Eb & Ey).
    pose proof (descent_run_verdict X y a eps M b0 g out cnt) as V.
    pose proof (descend_defined X y a eps M b0 NZ (or_introl Ey) Eb) as Nr.
    pose proof (descend_sound X y a eps M 0 b0) as Sd.
    unfold entered_by. cbn [entered].
    destruct (descend X y a eps M 0 b0) as [t bt new|bM|t e].
    + destruct Sd as [T _]. destruct (NoMeet _ _ _ T).
    + rewrite V. cbn [fst snd entered]. split; [reflexivity|lia].
    + destruct (Nr t e eq_refl).
Qed.

Lemma nonpositive_tolerance_witness :
  snd (descent_run X2 y2 alpha_nb b2 0 4 start) = Val false /\
  entered_by (descent_run X2 y2 alpha_nb b2 0 4) start = 4%nat.
Proof.
  apply (nonpositive_tolerance X2 y2 alpha_nb b2 0 4 start).
  - discriminate.
  - repeat split. discriminate.
Defined.

(** An update that leaves every entry as it was passes the tolerance test,
    whatever the positive tolerance. *)
Lemma still_update_meets (X : ndarray Q) (y : list Q) (a : Q) (b : ndarray Q)
    (eps : Q) :
  (forall r c, (r < nrows b)%nat -> (c < ncols b)%nat ->
     update_entry X y a b r c == item b r c) ->
  0 < eps ->
  exists s, half_sq_dist (updated X y a b) b = Ok s /\ kltb s eps = true.
Proof.
  intros St Pe. unfold half_sq_dist.
  rewrite (np_sub_ok (updated X y a b) b (nrows b) (ncols b)
             (broadcast_dim_refl (nrows b)) (broadcast_dim_refl (ncols b))).
  cbn [rbind]. eexists. split; [reflexivity|].
  cbn [kltb Q_Scalar]. apply Qlt_bool_true. q_ops.
  unfold np_power. cbn [nrows ncols build].
  rewrite np_sum_zero; [unfold Qdiv; rewrite Qmult_0_l; exact Pe|].
  intros r c Hr Hc. rewrite (item_build _ _ _ r c Hr Hc).
  change (nrows (updated X y a b)) with (nrows b).
  change (ncols (updated X y a b)) with (ncols b).
  rewrite (stretch_id (nrows b) r Hr), (stretch_id (ncols b) c Hc).
  unfold updated. rewrite (item_build _ _ _ r c Hr Hc). q_ops.
  rewrite (St r c Hr Hc). change (Qofnat 1) with 1. ring.
Qed.

(** Started where the gradient of the loss vanishes, the cell stops in its
    first iteration and delivers the estimate it started from. *)
Lemma stationary_start (X : ndarray Q) (y : list Q) (a : Q) (b0 : ndarray Q)
    (eps : Q) (M : nat) g out cnt :
  shapes_fit X y b0 ->
  (forall r c, (r < nrows b0)%nat -> (c < ncols b0)%nat ->
     mse_gradient X y b0 r c == 0) ->
  0 < eps -> (0 < M)%nat ->
  exists h,
    gradient_descent X y a b0 eps M (State g out cnt) =
    (State (Namespace (Some a) (Some b0) (Some eps) (Some M) (Some 0%nat)
              (Some h) (Some h))
           (out ++ [went_through 0; beta_hat_label; [PArr h]]) (cnt + 1)%nat,
     Val true) /\
    nrows h = nrows b0 /\ ncols h = ncols b0 /\
    forall r c, (r < nrows b0)%nat -> (c < ncols b0)%nat ->
      item h r c == item b0 r c.
Proof.
  intros (NZ & Eb & Ey) Gz Pe Pos.
  assert (St : forall r c, (r < nrows b0)%nat -> (c < ncols b0)%nat ->
                update_entry X y a b0 r c == item b0 r c).
  { intros r c Hr Hc. rewrite (update_entry_Q X y a b0 r c Ey), (Gz r c Hr Hc).
    ring. }
  exists (updated X y a b0).
  assert (D : descend X y a eps M 0 b0 = Converged 0 b0 (updated X y a b0)).
  { destruct M as [|m]; [lia|]. cbn [descend].
    rewrite (descent_step_defined X y a b0 NZ Eb (or_introl Ey)).
    destruct (still_update_meets X y a b0 eps St Pe) as (s & Hs & Lt).
    unfold updated in Hs. rewrite Hs, Lt. reflexivity. }
  split.
  - apply gradient_descent_converged. exact D.
  - split; [reflexivity|]. split; [reflexivity|].
    intros r c Hr Hc. unfold updated. rewrite (item_build _ _ _ r c Hr Hc).
    apply St; assumption.
Qed.

(** X9: the estimates that the update leaves in place are the solutions of
    the normal equation: for a learning rate other than zero, the proposed
    update equals the current estimate exactly when the gradient
    [(2/n) X^T (X b - y)] vanishes; and a run started at such an estimate
    stops in its first iteration and delivers it. *)
Theorem stationary_estimates (X : ndarray Q) (y : list Q) (a : Q)
    (b0 : ndarray Q) (eps : Q) (M : nat) (st : state Q) :
  shapes_fit X y b0 ->
  (~ a == 0 ->
   ((forall r c, (r < nrows b0)%nat -> (c < ncols b0)%nat ->
       item (updated X y a b0) r c == item b0 r c) <->
    (forall r c, (r < nrows b0)%nat -> (c < ncols b0)%nat ->
       mse_gradient X y b0 r c == 0))) /\
  ((forall r c, (r < nrows b0)%nat -> (c < ncols b0)%nat ->
      mse_gradient X y b0 r c == 0) ->
   0 < eps -> (0 < M)%nat ->
   snd (gradient_descent X y a b0 eps M st) = Val true /\
   entered_by (gradient_descent X y a b0 eps M) st = 1%nat /\
   exists h,
     beta_hat (globals (fst (gradient_descent X y a b0 eps M st))) = Some h /\
     forall r c, (r < nrows b0)%nat -> (c < ncols b0)%nat ->
       item h r c == item b0 r c).
Proof.
  intros Sh. split.
  - intros Na. destruct Sh as (NZ & Eb & Ey). split.
    + intros St r c Hr Hc. specialize (St r c Hr Hc).
      unfold updated in St. rewrite (item_build _ _ _ r c Hr Hc) in St.
      rewrite (update_entry_Q X y a b0 r c Ey) in St.
      assert (Z : a * mse_gradient X y b0 r c == 0) by lra.
      apply Qmult_integral in Z. destruct Z as [Z|Z]; [contradiction|exact Z].
    + intros Gz r c Hr Hc. unfold updated. rewrite (item_build _ _ _ r c Hr Hc).
      rewrite (update_entry_Q X y a b0 r c Ey), (Gz r c Hr Hc). ring.
  - intros Gz Pe Pos. destruct st as [g out cnt].
    destruct (stationary_start X y a b0 eps M g out cnt Sh Gz Pe Pos)
      as (h & E & _ & _ & Eh).
    unfold entered_by. rewrite E. cbn [fst snd globals beta_hat entered].
    split; [reflexivity|]. split; [lia|]. exists h. split; [reflexivity|exact Eh].
Qed.

Lemma stationary_estimates_witness :
  snd (gradient_descent X2 y2 alpha_nb stale tol_nb 5 start) = Val true /\
  entered_by (gradient_descent X2 y2 alpha_nb stale tol_nb 5) start = 1%nat /\
  exists h,
    beta_hat (globals (fst (gradient_descent X2 y2 alpha_nb stale tol_nb 5 start))) =
      Some h /\
    forall r c, (r < nrows stale)%nat -> (c < ncols stale)%nat ->
      item h r c == item stale r c.
Proof.
  apply (stationary_estimates X2 y2 alpha_nb stale tol_nb 5 start).
  - repeat split. discriminate.
  - intros [|[|r]] [|c] Hr Hc; cbn in Hr, Hc; try lia; reflexivity.
  - reflexivity.
  - lia.
Defined.

Lemma iterate_mse (X : ndarray Q) (y : list Q) (a L : Q) :
  nrows X <> 0%nat -> length y = nrows X ->
  spectral_bound X L -> 0 <= a -> a * L <= Qofnat (nrows X) ->
  forall t b bt,
    ncols X = nrows b -> (0 < ncols b)%nat ->
    iterate X y a t b = Ok bt -> mse X y bt <= mse X y b.
Proof.
  intros NZ Ey SB Pa Pl. induction t as [|t IH]; intros b bt Eb Cb It.
  - injection It as <-. apply Qle_refl.
  - cbn [iterate] in It.
    rewrite (descent_step_defined X y a b NZ Eb (or_introl Ey)) in It.
    cbn [rbind] in It. fold (updated X y a b) in It.
    apply Qle_trans with (mse X y (updated X y a b)).
    + apply (IH (updated X y a b) bt); [exact Eb|exact Cb|exact It].
    + apply (mse_not_raised X y a b NZ Eb Ey Cb L SB Pa Pl).
Qed.

(** X10: with a learning rate [0 <= a <= n / L], [L] a bound of the norm of
    [X^T X], no estimate of the run has a larger mean squared error than the
    initial guess, and neither has the estimate a converged run delivers. *)
Theorem loss_never_above_start (X : ndarray Q) (y : list Q) (a : Q)
    (b0 : ndarray Q) (eps L : Q) (M : nat) (st : state Q) :
  shapes_fit X y b0 -> (0 < ncols b0)%nat ->
  spectral_bound X L -> 0 <= a -> a * L <= Qofnat (nrows X) ->
  (forall t bt, iterate X y a t b0 = Ok bt -> mse X y bt <= mse X y b0) /\
  (snd (gradient_descent X y a b0 eps M st) = Val true ->
   exists h,
     beta_hat (globals (fst (gradient_descent X y a b0 eps M st))) = Some h /\
     mse X y h <= mse X y b0).
Proof.
  intros (NZ & Eb & Ey) Cb SB Pa Pl.
  assert (Im : forall t bt, iterate X y a t b0 = Ok bt ->
                            mse X y bt <= mse X y b0).
  { intros t bt It.
    apply (iterate_mse X y a L NZ Ey SB Pa Pl t b0 bt Eb Cb It). }
  split; [exact Im|].
  destruct st as [g out cnt]. intros E.
  destruct (converged_verdict X y a b0 eps M g out cnt E) as (t & bt & new & D).
  rewrite (gradient_descent_converged X y a eps M b0 bt new t g out cnt D).
  exists new. split; [reflexivity|].
  pose proof (descend_sound X y a eps M 0 b0) as Sd. rewrite D in Sd.
  destruct Sd as [T _]. rewrite Nat.sub_0_r in T. unfold trial in T.
  destruct (iterate X y a t b0) as [b|] eqn:It; [|discriminate].
  cbn [rbind] in T.
  destruct (descent_step X y a b) as [n'|] eqn:Ds; [|discriminate].
  cbn [rbind] in T. destruct (half_sq_dist n' b); [|discriminate].
  injection T as -> -> _.
  apply (Im (S t) new). rewrite iterate_S, It. exact Ds.
Qed.

Lemma spectral_bound_X2 : spectral_bound X2 2.
Proof.
  intros v. cbn. unfold item. cbn.
  assert (0 <= v 1%nat ^ 2) by apply Qsquare_nonneg. nra.
Qed.

Lemma loss_never_above_start_witness :
  exists h,
    beta_hat (globals (fst (gradient_descent X2 y2 (1 # 2) b2 tol_nb 3 start))) =
      Some h /\
    mse X2 y2 h <= mse X2 y2 b2.
Proof.
  apply (loss_never_above_start X2 y2 (1 # 2) b2 tol_nb 2 3 start).
  - repeat split. discriminate.
  - cbn. lia.
  - exact spectral_bound_X2.
  - discriminate.
  - discriminate.
  - vm_compute. reflexivity.
Defined.

(** ** The cell that generates the data *)

Lemma nth_map_seq {A} (f : nat -> A) (n r : nat) (d : A) :
  (r < n)%nat -> nth r (map f (seq 0 n)) d = f r.
Proof.
  intros Lt. rewrite (nth_indep _ d (f 0%nat)) by (rewrite length_map, length_seq; exact Lt).
  rewrite (map_nth f (seq 0 n) 0%nat r), seq_nth by exact Lt. reflexivity.
Qed.

Lemma set_column_ok {K} `{Scalar K} (A : ndarray K) (c : nat) (v : list K) :
  (c < ncols A)%nat -> length v = nrows A ->
  set_column A c v =
  Fine (build (nrows A) (ncols A)
          (fun r k => if (k =? c)%nat then nth r v kzero else item A r k)).
Proof.
  intros Lt E. unfold set_column.
  destruct (Nat.ltb_spec c (ncols A)); [|lia]. rewrite E, Nat.eqb_refl.
  reflexivity.
Qed.

Lemma column_ok {K} `{Scalar K} (A : ndarray K) (c : nat) :
  (c < ncols A)%nat ->
  column A c = Fine (map (fun r => item A r c) (seq 0 (nrows A))).
Proof.
  intros Lt. unfold column. destruct (Nat.ltb_spec c (ncols A)); [|lia].
  reflexivity.
Qed.

Lemma vec_add_same {K} `{Scalar K} (u v : list K) :
  length u = length v ->
  vec_add u v =
  Ok (map (fun k => kadd (nth k u kzero) (nth k v kzero)) (seq 0 (length u))).
Proof. intros E. unfold vec_add. rewrite E, Nat.eqb_refl. reflexivity. Qed.

(** What the data cell builds: a column of ones, the feature [3 z_r], and
    the targets [2*1 + 7*(3 z_r) + 4 e_r], one per observation. *)
Lemma generate_data_spec {K} `{Scalar K} (n : nat) (z e : nat -> K) :
  exists X y,
    generate_data n z e = Fine (X, y) /\
    nrows X = n /\ ncols X = 2%nat /\ length y = n /\
    forall r, (r < n)%nat ->
      item X r 0 = kofnat 1 /\
      item X r 1 = kmul (kofnat 3) (z r) /\
      nth r y kzero =
        kadd (kadd (kmul (kofnat 2) (item X r 0)) (kmul (kofnat 7) (item X r 1)))
             (kmul (kofnat 4) (e r)).
Proof.
  unfold generate_data.
  rewrite (set_column_ok (np_ones n 2) 1 (vec_scale (kofnat 3) (randn n z)));
    [|cbn; lia
     |unfold vec_scale, randn; rewrite !length_map, length_seq; reflexivity].
  cbn [abind].
  set (X := build (nrows (np_ones n 2)) (ncols (np_ones n 2))
              (fun r k => if (k =? 1)%nat
                          then nth r (vec_scale (kofnat 3) (randn n z)) kzero
                          else item (np_ones n 2) r k)).
  rewrite (column_ok X 0) by (cbn; lia). cbn [abind].
  rewrite (column_ok X 1) by (cbn; lia). cbn [abind].
  change (nrows X) with n.
  rewrite vec_add_same
    by (unfold vec_scale; rewrite !length_map, !length_seq; reflexivity).
  cbn [lift abind].
  rewrite vec_add_same
    by (unfold vec_scale, randn; rewrite !length_map, !length_seq; reflexivity).
  cbn [lift abind].
  exists X. eexists. split; [reflexivity|].
  split; [reflexivity|]. split; [reflexivity|].
  unfold vec_scale, randn. rewrite !length_map, !length_seq.
  split; [reflexivity|].
  intros r Hr.
  assert (I0 : item X r 0 = kofnat 1).
  { unfold X. change (nrows (np_ones n 2)) with n.
    change (ncols (np_ones n 2)) with 2%nat.
    rewrite (item_build n 2 _ r 0%nat Hr ltac:(lia)). cbn [Nat.eqb].
    unfold np_ones.
    exact (item_build n 2 (fun _ _ => kofnat 1) r 0%nat Hr ltac:(lia)). }
  assert (I1 : item X r 1 = kmul (kofnat 3) (z r)).
  { unfold X. change (nrows (np_ones n 2)) with n.
    change (ncols (np_ones n 2)) with 2%nat.
    rewrite (item_build n 2 _ r 1%nat Hr ltac:(lia)). cbn [Nat.eqb].
    unfold vec_scale, randn. rewrite map_map.
    exact (nth_map_seq (fun x => kmul (kofnat 3) (z x)) n r kzero Hr). }
  split; [exact I0|]. split; [exact I1|].
  rewrite (nth_map_seq _ n r kzero Hr).
  rewrite (nth_map_seq _ n r kzero Hr).
  rewrite !map_map. rewrite !(nth_map_seq _ n r kzero Hr). reflexivity.
Qed.

(** X11: the data cell never raises, and what it builds always runs through
    the descent loop: for at least one observation and an initial guess of two
    rows, the loop ends by the tolerance test or at the cap, without an
    exception. *)
Theorem generated_data_fit {K} `{Scalar K} (n : nat) (z e : nat -> K) :
  exists X y,
    generate_data n z e = Fine (X, y) /\
    nrows X = n /\ ncols X = 2%nat /\ length y = n /\
    forall a b0 eps M st,
      (0 < n)%nat -> nrows b0 = 2%nat ->
      exists st' by_break,
        descent_run X y a b0 eps M st = (st', Val by_break).
Proof.
  destruct (generate_data_spec n z e) as (X & y & G & Rn & Cn & Ly & _).
  exists X, y. repeat (split; [assumption|]).
  intros a b0 eps M [g out cnt] Pos Rb.
  pose proof (descent_run_verdict X y a eps M b0 g out cnt) as V.
  assert (NZ : nrows X <> 0%nat) by lia.
  assert (Eb : ncols X = nrows b0) by congruence.
  assert (Ey : length y = nrows X) by congruence.
  pose proof (descend_defined X y a eps M b0 NZ (or_introl Ey) Eb) as Nr.
  destruct (descend X y a eps M 0 b0) as [t bt new|bM|t e'].
  - eexists; eexists; exact V.
  - eexists; eexists; exact V.
  - destruct (Nr t e' eq_refl).
Qed.

Lemma Qsum_zero (n : nat) (f : nat -> Q) :
  (forall k, (k < n)%nat -> f k == 0) -> Qsum n f == 0.
Proof.
  induction n as [|n IH]; intros Z; cbn; [reflexivity|].
  rewrite IH by (intros; apply Z; lia). rewrite (Z n) by lia. ring.
Qed.

(** Without noise the targets are [2 + 7 x] exactly. *)
Lemma noise_free_targets (n : nat) (z : nat -> Q) (X : ndarray Q) (y : list Q) :
  generate_data n z (fun _ => 0) = Fine (X, y) ->
  nrows X = n /\ ncols X = 2%nat /\ length y = n /\
  forall r, (r < n)%nat ->
    item X r 0 == 1 /\ nth r y 0 == 2 * item X r 0 + 7 * item X r 1.
Proof.
  intros G.
  destruct (generate_data_spec n z (fun _ => 0)) as (X' & y' & G' & Rn & Cn & Ly & En).
  rewrite G in G'. injection G' as <- <-.
  repeat (split; [assumption|]). intros r Hr.
  destruct (En r Hr) as (E0 & _ & Ey). split; [rewrite E0; reflexivity|].
  change (nth r y 0) with (nth r y kzero). rewrite Ey. q_ops.
  change (Qofnat 2) with 2. change (Qofnat 7) with 7. change (Qofnat 4) with 4.
  ring.
Qed.

Lemma predict_two_columns (X b : ndarray Q) (r c : nat) :
  ncols X = 2%nat ->
  predict X b r c == item X r 0 * item b 0 c + item X r 1 * item b 1 c.
Proof. intros Cn. unfold predict. rewrite Cn. cbn [Qsum]. ring. Qed.



(** ** The cell that solves the normal equation *)

Lemma sigma_two (f : nat -> Q) : sigma 2 f == f 0%nat + f 1%nat.
Proof. q_ops. change (Qofnat 0) with 0. ring. Qed.

Lemma Qsum_linear3 (n : nat) (u v w : nat -> Q) (p q : Q) :
  Qsum n (fun r => p * u r + q * v r - w r) ==
  p * Qsum n u + q * Qsum n v - Qsum n w.
Proof.
  induction n as [|n IH]; cbn; [ring|]. rewrite IH. ring.
Qed.

(** For a design matrix of two columns the cell returns the solution of the
    two normal equations by Cramer's rule, and it returns at all only when
    [y] has one entry per row and the determinant of [X^T X] is not zero. *)
Lemma normal_equation_cramer (X : ndarray Q) (y beta : list Q) :
  ncols X = 2%nat -> normal_equation X y = Fine beta ->
  length y = nrows X /\
  ~ gram X 0 0 * gram X 1 1 - gram X 0 1 * gram X 1 0 == 0 /\
  exists c0 c1,
    beta = [c0; c1] /\
    c0 == (gram X 1 1 * moment X y 0 - gram X 0 1 * moment X y 1) /
          (gram X 0 0 * gram X 1 1 - gram X 0 1 * gram X 1 0) /\
    c1 == (gram X 0 0 * moment X y 1 - gram X 1 0 * moment X y 0) /
          (gram X 0 0 * gram X 1 1 - gram X 0 1 * gram X 1 0).
Proof.
  destruct X as [n p rws]. cbn [ncols nrows]. intros ->.
  set (X := NdArray n 2 rws).
  unfold normal_equation.
  rewrite (np_dot_ok (np_transpose X) X eq_refl). cbn [lift abind].
  change (nrows (np_transpose X)) with 2%nat. change (ncols X) with 2%nat.
  change (ncols (np_transpose X)) with n.
  set (G := build 2 2 _).
  assert (FG : forall j k, (j < 2)%nat -> (k < 2)%nat -> item G j k == gram X j k).
  { intros j k Hj Hk. unfold G. rewrite (item_build 2 2 _ j k Hj Hk).
    apply sigma_Qsum. intros r Hr. q_ops. unfold np_transpose.
    rewrite (item_build _ _ _ j r Hj Hr). reflexivity. }
  unfold np_linalg_inv. change (nrows G) with 2%nat. change (ncols G) with 2%nat.
  cbn [Nat.eqb].
  set (d := gram X 0 0 * gram X 1 1 - gram X 0 1 * gram X 1 0).
  assert (Fd : det_fun 2 (item G) == d).
  { cbn [det_fun Qsum Nat.even skip Nat.ltb Nat.leb].
    rewrite (FG 0%nat 0%nat), (FG 0%nat 1%nat), (FG 1%nat 0%nat), (FG 1%nat 1%nat) by lia. unfold d. ring. }
  destruct (Qeq_bool (det_fun 2 (item G)) 0) eqn:Dz; [discriminate|].
  assert (Nd : ~ d == 0).
  { apply Qeq_bool_neq in Dz. rewrite Fd in Dz. exact Dz. }
  cbn [abind]. set (B := build 2 2 _).
  assert (B00 : item B 0 0 == gram X 1 1 / d).
  { unfold B. rewrite (item_build 2 2 _ 0%nat 0%nat) by lia. rewrite Qred_correct, Fd.
    unfold cofactor.
    cbn [det_fun Qsum Nat.even Nat.add Nat.sub skip Nat.ltb Nat.leb].
    rewrite (FG 1%nat 1%nat) by lia. field. exact Nd. }
  assert (B01 : item B 0 1 == - gram X 0 1 / d).
  { unfold B. rewrite (item_build 2 2 _ 0%nat 1%nat) by lia. rewrite Qred_correct, Fd.
    unfold cofactor.
    cbn [det_fun Qsum Nat.even Nat.add Nat.sub skip Nat.ltb Nat.leb].
    rewrite (FG 0%nat 1%nat) by lia. field. exact Nd. }
  assert (B10 : item B 1 0 == - gram X 1 0 / d).
  { unfold B. rewrite (item_build 2 2 _ 1%nat 0%nat) by lia. rewrite Qred_correct, Fd.
    unfold cofactor.
    cbn [det_fun Qsum Nat.even Nat.add Nat.sub skip Nat.ltb Nat.leb].
    rewrite (FG 1%nat 0%nat) by lia. field. exact Nd. }
  assert (B11 : item B 1 1 == gram X 0 0 / d).
  { unfold B. rewrite (item_build 2 2 _ 1%nat 1%nat) by lia. rewrite Qred_correct, Fd.
    unfold cofactor.
    cbn [det_fun Qsum Nat.even Nat.add Nat.sub skip Nat.ltb Nat.leb].
    rewrite (FG 0%nat 0%nat) by lia. field. exact Nd. }
  rewrite (np_dot_ok B (np_transpose X) eq_refl). cbn [lift abind].
  change (nrows B) with 2%nat. change (ncols B) with 2%nat.
  change (ncols (np_transpose X)) with n.
  set (P := build 2 n _).
  unfold np_dot_1d. change (ncols P) with n. change (nrows P) with 2%nat.
  destruct (Nat.eqb_spec n (length y)) as [Ly|]; [|discriminate].
  cbn [lift seq map]. intros E. injection E as <-.
  split; [symmetry; exact Ly|]. split; [exact Nd|].
  assert (Fb : forall j, (j < 2)%nat ->
            sigma n (fun k => kmul (item P j k) (nth k y kzero)) ==
            item B j 0 * moment X y 0 + item B j 1 * moment X y 1).
  { intros j Hj.
    rewrite (sigma_Qsum n _
               (fun k => item B j 0 * (item X k 0 * nth k y 0) +
                         item B j 1 * (item X k 1 * nth k y 0))).
    - rewrite Qsum_plus, !Qsum_scale. reflexivity.
    - intros k Hk. q_ops. unfold P. rewrite (item_build 2 n _ j k Hj Hk).
      rewrite sigma_two. q_ops. unfold np_transpose.
      rewrite (item_build 2 n _ 0%nat k) by lia.
      rewrite (item_build 2 n _ 1%nat k) by lia.
      change (nth k y (Qofnat 0)) with (nth k y 0). ring. }
  eexists. eexists. split; [reflexivity|]. split.
  - rewrite (Fb 0%nat) by lia. rewrite B00, B01. fold d. field. exact Nd.
  - rewrite (Fb 1%nat) by lia. rewrite B10, B11. fold d. field. exact Nd.
Qed.

Lemma gradient_two_columns (X : ndarray Q) (y : list Q) (b : ndarray Q) (j : nat) :
  ncols X = 2%nat ->
  Qsum (nrows X) (fun r => item X r j * (predict X b r 0 - nth r y 0)) ==
  item b 0 0 * gram X j 0 + item b 1 0 * gram X j 1 - moment X y j.
Proof.
  intros Cn. unfold gram, moment.
  rewrite <- Qsum_linear3. apply Qsum_ext. intros r _.
  rewrite (predict_two_columns X b r 0 Cn). ring.
Qed.

(** X13: for a design matrix of two columns, what the normal-equation cell
    returns solves the normal equations [X^T X beta = X^T y]: the gradient of
    the mean squared error vanishes there; and the cell returns only when [y]
    has one entry per row of [X]. *)
Theorem normal_equation_solves (X : ndarray Q) (y beta : list Q) :
  ncols X = 2%nat -> normal_equation X y = Fine beta ->
  length y = nrows X /\ length beta = 2%nat /\
  (forall j, (j < 2)%nat ->
     gram X j 0 * nth 0 beta 0 + gram X j 1 * nth 1 beta 0 == moment X y j) /\
  (forall j c, (j < 2)%nat -> (c < 1)%nat ->
     mse_gradient X y (reshape_column beta) j c == 0).
Proof.
  intros Cn E.
  destruct (normal_equation_cramer X y beta Cn E)
    as (Ly & Nd & c0 & c1 & -> & E0 & E1).
  assert (Ne : forall j, (j < 2)%nat ->
            gram X j 0 * c0 + gram X j 1 * c1 == moment X y j).
  { intros [|[|j]] Hj; [| |lia]; rewrite E0, E1; field; exact Nd. }
  split; [exact Ly|]. split; [reflexivity|]. split; [exact Ne|].
  intros j c Hj Hc. assert (c = 0%nat) by lia. subst c.
  unfold mse_gradient. rewrite (gradient_two_columns X y _ j Cn).
  change (item (reshape_column [c0; c1]) 0 0) with c0.
  change (item (reshape_column [c0; c1]) 1 0) with c1.
  rewrite <- (Ne j Hj). ring.
Qed.

Lemma normal_equation_solves_witness :
  length [25; - (19); 44] = nrows (NdArray 3 2 [[1; 3]; [1; - (3)]; [1; 6]]) /\
  length [18 # 7; 148 # 21] = 2%nat /\
  (forall j, (j < 2)%nat ->
     gram (NdArray 3 2 [[1; 3]; [1; - (3)]; [1; 6]]) j 0 * nth 0 [18 # 7; 148 # 21] 0 +
     gram (NdArray 3 2 [[1; 3]; [1; - (3)]; [1; 6]]) j 1 * nth 1 [18 # 7; 148 # 21] 0 ==
     moment (NdArray 3 2 [[1; 3]; [1; - (3)]; [1; 6]]) [25; - (19); 44] j) /\
  (forall j c, (j < 2)%nat -> (c < 1)%nat ->
     mse_gradient (NdArray 3 2 [[1; 3]; [1; - (3)]; [1; 6]]) [25; - (19); 44]
       (reshape_column [18 # 7; 148 # 21]) j c == 0).
Proof.
  apply (normal_equation_solves (NdArray 3 2 [[1; 3]; [1; - (3)]; [1; 6]])
           [25; - (19); 44] [18 # 7; 148 # 21]).
  - reflexivity.
  - vm_compute. reflexivity.
Defined.

Lemma Qofnat_inverse_nonneg (n : nat) : 0 <= 1 / Qofnat n.
Proof.
  unfold Qdiv. rewrite Qmult_1_l. apply Qinv_le_0_compat.
  unfold Qofnat. change 0 with (inject_Z 0). rewrite <- Zle_Qle. lia.
Qed.

(** An estimate at which [X^T (X b - y)] vanishes has the least mean squared
    error of all. *)
Lemma zero_gradient_minimises (X : ndarray Q) (y : list Q) (bs b : ndarray Q) :
  (forall k, (k < ncols X)%nat ->
     Qsum (nrows X) (fun r => item X r k * (predict X bs r 0 - nth r y 0)) == 0) ->
  mse X y bs <= mse X y b.
Proof.
  intros Gz.
  set (dl := fun k => item b k 0 - item bs k 0).
  set (dd := fun r => Qsum (ncols X) (fun k => item X r k * dl k)).
  assert (F1 : forall r, predict X b r 0 == predict X bs r 0 + dd r).
  { intros r. unfold predict, dd. rewrite <- Qsum_plus. apply Qsum_ext.
    intros k _. unfold dl. ring. }
  assert (Cross : Qsum (nrows X)
                    (fun r => (predict X bs r 0 - nth r y 0) * dd r) == 0).
  { transitivity
      (Qsum (nrows X) (fun r =>
         Qsum (ncols X) (fun k =>
           (predict X bs r 0 - nth r y 0) * (item X r k * dl k)))).
    { apply Qsum_ext. intros r _. unfold dd. symmetry. apply Qsum_scale. }
    rewrite Qsum_swap. apply Qsum_zero. intros k Hk.
    transitivity
      (dl k * Qsum (nrows X)
                (fun r => item X r k * (predict X bs r 0 - nth r y 0))).
    - rewrite <- Qsum_scale. apply Qsum_ext. intros r _. ring.
    - rewrite (Gz k Hk). ring. }
  assert (Ex : Qsum (nrows X) (fun r => (nth r y 0 - predict X b r 0) ^ 2) ==
               Qsum (nrows X) (fun r => (nth r y 0 - predict X bs r 0) ^ 2) +
               Qsum (nrows X) (fun r => dd r ^ 2)).
  { transitivity
      (Qsum (nrows X) (fun r =>
         (nth r y 0 - predict X bs r 0) ^ 2 +
         (2 * ((predict X bs r 0 - nth r y 0) * dd r) + dd r ^ 2))).
    { apply Qsum_ext. intros r _. rewrite (F1 r). ring. }
    rewrite !Qsum_plus, Qsum_scale, Cross. ring. }
  unfold mse. rewrite Ex.
  assert (P2 : 0 <= Qsum (nrows X) (fun r => dd r ^ 2)).
  { apply Qsum_nonneg. intros r _. apply Qsquare_nonneg. }
  pose proof (Qofnat_inverse_nonneg (nrows X)) as Pi.
  set (u := 1 / Qofnat (nrows X)) in *.
  set (A := Qsum (nrows X) (fun r => (nth r y 0 - predict X bs r 0) ^ 2)).
  set (D := Qsum (nrows X) (fun r => dd r ^ 2)) in *.
  assert (0 <= u * D) by (apply Qmult_le_0_compat; assumption).
  lra.
Qed.

(** X14: for a design matrix of two columns, no parameter vector has a
    smaller mean squared error than the one the normal-equation cell
    returns. *)
Theorem normal_equation_minimises (X : ndarray Q) (y beta : list Q)
    (b : ndarray Q) :
  ncols X = 2%nat -> normal_equation X y = Fine beta ->
  mse X y (reshape_column beta) <= mse X y b.
Proof.
  intros Cn E.
  destruct (normal_equation_cramer X y beta Cn E)
    as (Ly & Nd & c0 & c1 & -> & E0 & E1).
  apply zero_gradient_minimises. rewrite Cn. intros k Hk.
  rewrite (gradient_two_columns X y _ k Cn).
  change (item (reshape_column [c0; c1]) 0 0) with c0.
  change (item (reshape_column [c0; c1]) 1 0) with c1.
  destruct k as [|[|k]]; [| |lia]; rewrite E0, E1; field; exact Nd.
Qed.

Lemma normal_equation_minimises_witness :
  mse (NdArray 3 2 [[1; 3]; [1; - (3)]; [1; 6]]) [25; - (19); 44]
      (reshape_column [18 # 7; 148 # 21]) <=
  mse (NdArray 3 2 [[1; 3]; [1; - (3)]; [1; 6]]) [25; - (19); 44]
      (reshape_column beta_true).
Proof.
  apply (normal_equation_minimises (NdArray 3 2 [[1; 3]; [1; - (3)]; [1; 6]])
           [25; - (19); 44] [18 # 7; 148 # 21] (reshape_column beta_true)).
  - reflexivity.
  - vm_compute. reflexivity.
Defined.

(** X15: in exact arithmetic the two cells agree: started at what the
    normal-equation cell returns, the descent cell stops in its first
    iteration and delivers that estimate, for every learning rate. *)
Theorem descent_from_normal_equation (X : ndarray Q) (y beta : list Q)
    (a eps : Q) (M : nat) (st : state Q) :
  ncols X = 2%nat -> nrows X <> 0%nat ->
  normal_equation X y = Fine beta ->
  0 < eps -> (0 < M)%nat ->
  snd (gradient_descent X y a (reshape_column beta) eps M st) = Val true /\
  entered_by (gradient_descent X y a (reshape_column beta) eps M) st = 1%nat /\
  exists h,
    beta_hat (globals (fst (gradient_descent X y a (reshape_column beta) eps M st))) =
      Some h /\
    item h 0 0 == nth 0 beta 0 /\ item h 1 0 == nth 1 beta 0.
Proof.
  intros Cn NZ E Pe PM.
  destruct (normal_equation_solves X y beta Cn E) as (Ly & Lb & _ & Gz).
  assert (Sh : shapes_fit X y (reshape_column beta)).
  { repeat split; [exact NZ|cbn; congruence|exact Ly]. }
  assert (Gz' : forall r c, (r < nrows (reshape_column beta))%nat ->
                  (c < ncols (reshape_column beta))%nat ->
                  mse_gradient X y (reshape_column beta) r c == 0).
  { intros r c Hr Hc. cbn [nrows ncols reshape_column] in Hr, Hc.
    apply Gz; [lia|exact Hc]. }
  destruct st as [g out cnt].
  destruct (stationary_start X y a (reshape_column beta) eps M g out cnt
              Sh Gz' Pe PM) as (h & Eh & _ & _ & Ih).
  unfold entered_by. rewrite Eh. cbn [fst snd globals beta_hat entered].
  split; [reflexivity|]. split; [lia|]. exists h. split; [reflexivity|].
  cbn [nrows ncols reshape_column] in Ih. rewrite Lb in Ih.
  split.
  - transitivity (item (reshape_column beta) 0 0); [apply Ih; lia|].
    rewrite item_reshape_column. reflexivity.
  - transitivity (item (reshape_column beta) 1 0); [apply Ih; lia|].
    rewrite item_reshape_column. reflexivity.
Qed.

Lemma descent_from_normal_equation_witness :
  snd (gradient_descent (NdArray 3 2 [[1; 3]; [1; - (3)]; [1; 6]]) [25; - (19); 44]
         alpha_nb (reshape_column [18 # 7; 148 # 21]) tol_nb 5 start) = Val true /\
  entered_by (gradient_descent (NdArray 3 2 [[1; 3]; [1; - (3)]; [1; 6]])
                [25; - (19); 44] alpha_nb (reshape_column [18 # 7; 148 # 21])
                tol_nb 5) start = 1%nat /\
  exists h,
    beta_hat (globals (fst (gradient_descent
                              (NdArray 3 2 [[1; 3]; [1; - (3)]; [1; 6]])
                              [25; - (19); 44] alpha_nb
                              (reshape_column [18 # 7; 148 # 21]) tol_nb 5 start))) =
      Some h /\
    item h 0 0 == nth 0 [18 # 7; 148 # 21] 0 /\
    item h 1 0 == nth 1 [18 # 7; 148 # 21] 0.
Proof.
  apply (descent_from_normal_equation (NdArray 3 2 [[1; 3]; [1; - (3)]; [1; 6]])
           [25; - (19); 44] [18 # 7; 148 # 21] alpha_nb tol_nb 5 start).
  - reflexivity.
  - discriminate.
  - vm_compute. reflexivity.
  - reflexivity.
  - lia.
Defined.

(** The cell raises [LinAlgError] when the determinant of [X^T X] is zero. *)
Lemma normal_equation_singular (X : ndarray Q) (y : list Q) :
  ncols X = 2%nat ->
  gram X 0 0 * gram X 1 1 - gram X 0 1 * gram X 1 0 == 0 ->
  normal_equation X y = Fails LinAlgError.
Proof.
  destruct X as [n p rws]. cbn [ncols nrows]. intros ->.
  set (X := NdArray n 2 rws). intros Dz.
  unfold normal_equation.
  rewrite (np_dot_ok (np_transpose X) X eq_refl). cbn [lift abind].
  change (nrows (np_transpose X)) with 2%nat. change (ncols X) with 2%nat.
  change (ncols (np_transpose X)) with n.
  set (G := build 2 2 _).
  assert (FG : forall j k, (j < 2)%nat -> (k < 2)%nat -> item G j k == gram X j k).
  { intros j k Hj Hk. unfold G. rewrite (item_build 2 2 _ j k Hj Hk).
    apply sigma_Qsum. intros r Hr. q_ops. unfold np_transpose.
    rewrite (item_build _ _ _ j r Hj Hr). reflexivity. }
  unfold np_linalg_inv. change (nrows G) with 2%nat. change (ncols G) with 2%nat.
  cbn [Nat.eqb].
  assert (Fd : det_fun 2 (item G) == 0).
  { cbn [det_fun Qsum Nat.even skip Nat.ltb Nat.leb].
    rewrite (FG 0%nat 0%nat), (FG 0%nat 1%nat), (FG 1%nat 0%nat),
      (FG 1%nat 1%nat) by lia.
    transitivity (gram X 0 0 * gram X 1 1 - gram X 0 1 * gram X 1 0);
      [ring|exact Dz]. }
  apply Qeq_bool_iff in Fd. rewrite Fd. reflexivity.
Qed.

(** X16: in exact arithmetic, when the second column of a two-column design
    matrix is a multiple of the first, the determinant of [X^T X] is zero:
    the inverse the normal-equation cell asks for does not exist, and the
    cell, evaluated exactly, ends in [LinAlgError]. *)
Theorem collinear_columns_singular (X : ndarray Q) (y : list Q) (lam : Q) :
  ncols X = 2%nat ->
  (forall r, (r < nrows X)%nat -> item X r 1 == lam * item X r 0) ->
  gram X 0 0 * gram X 1 1 - gram X 0 1 * gram X 1 0 == 0 /\
  normal_equation X y = Fails LinAlgError.
Proof.
  intros Cn Col.
  assert (Dz : gram X 0 0 * gram X 1 1 - gram X 0 1 * gram X 1 0 == 0);
    [|split; [exact Dz|apply normal_equation_singular; [exact Cn|exact Dz]]].
  assert (G01 : gram X 0 1 == lam * gram X 0 0).
  { unfold gram. rewrite <- Qsum_scale. apply Qsum_ext. intros r Hr.
    rewrite (Col r Hr). ring. }
  assert (G10 : gram X 1 0 == lam * gram X 0 0).
  { unfold gram. rewrite <- Qsum_scale. apply Qsum_ext. intros r Hr.
    rewrite (Col r Hr). ring. }
  assert (G11 : gram X 1 1 == lam * (lam * gram X 0 0)).
  { unfold gram. rewrite <- !Qsum_scale. apply Qsum_ext. intros r Hr.
    rewrite (Col r Hr). ring. }
  rewrite G01, G10, G11. ring.
Qed.

Lemma collinear_columns_singular_witness :
  gram X2 0 0 * gram X2 1 1 - gram X2 0 1 * gram X2 1 0 == 0 /\
  normal_equation X2 y2 = Fails LinAlgError.
Proof.
  apply (collinear_columns_singular X2 y2 0).
  - reflexivity.
  - intros [|[|r]] Hr; cbn in Hr; try lia; reflexivity.
Defined.

(** X17: in exact arithmetic, on data generated without noise, whenever the
    normal-equation cell returns, it returns the true coefficients [2, 7]. *)
Theorem noise_free_normal_equation (n : nat) (z : nat -> Q) (X : ndarray Q)
    (y beta : list Q) :
  generate_data n z (fun _ => 0) = Fine (X, y) ->
  normal_equation X y = Fine beta ->
  exists c0 c1, beta = [c0; c1] /\ c0 == 2 /\ c1 == 7.
Proof.
  intros G E.
  destruct (noise_free_targets n z X y G) as (Rn & Cn & Ly & En).
  destruct (normal_equation_cramer X y beta Cn E)
    as (_ & Nd & c0 & c1 & -> & E0 & E1).
  assert (Mo : forall j, moment X y j == 2 * gram X j 0 + 7 * gram X j 1).
  { intros j. unfold moment, gram. rewrite <- !Qsum_scale, <- Qsum_plus.
    apply Qsum_ext. intros r Hr. rewrite Rn in Hr.
    destruct (En r Hr) as [_ Ey]. rewrite Ey. ring. }
  exists c0, c1. split; [reflexivity|].
  split; [rewrite E0|rewrite E1]; rewrite !Mo; field; exact Nd.
Qed.

Lemma noise_free_normal_equation_witness :
  exists c0 c1, [2; 7] = [c0; c1] /\ c0 == 2 /\ c1 == 7.
Proof.
  apply (noise_free_normal_equation 3
           (fun k => match k with O => 1 | S O => - (1) | _ => 2 end)
           (NdArray 3 2 [[1; 3]; [1; - (3)]; [1; 6]]) [23; - (19); 44] [2; 7]).
  - vm_compute. reflexivity.
  - vm_compute. reflexivity.
Defined.
